(** * Tensor aggregation rules of the SageMaker Debugger notebook

    Source: sagemaker-debugger/mnist_tensor_analysis/mnist_tensor_analysis.ipynb

    The notebook defines seven subclasses of smdebug's [Rule]
    (ActivationOutputs, ActivationInputs, GradientsLayer,
    GradientsAcrossLayers, WeightRatio, Inputs, Outputs).  Each one overrides
    [invoke_at_step], which walks over the tensor names of the trial, fetches
    the tensor of the step inside a [try] block, and records a statistic in
    the ordered dictionary [self.tensors].

    The embedding is shallow: Python statements become computations in a
    small state-and-exception monad over the rule object, dictionaries become
    insertion-ordered association lists, and the trial (an object of the
    smdebug library) is a record of the two methods the rules call. *)

From Stdlib Require Import String Bool Arith Lia List.
From Stdlib Require Import ZArith QArith Qminmax Qround.
From Stdlib Require Import Sorted Setoid Morphisms.
Import ListNotations.

Local Open Scope string_scope.
Local Open Scope list_scope.
Local Open Scope nat_scope.

Set Implicit Arguments.

(** ** Numbers

    Tensor entries are finite numbers, kept as exact rationals.  numpy
    computes in the element type of the array: the result of a
    floating-point operation is rounded to the format (to the nearest value,
    ties to the even one, beyond the range to infinity), and an integer sum
    wraps around at 64 bits.  [fnum] carries a finite value or one of the
    IEEE special values; the code itself writes [np.inf] as the initial
    minimum. *)

Inductive fnum :=
| Fin (q : Q)
| PInf
| NInf
| NaN.

(** Equality of derived numbers: rationals are compared as fractions. *)
Definition feq (a b : fnum) : Prop :=
  match a, b with
  | Fin x, Fin y => (x == y)%Q
  | PInf, PInf => True
  | NInf, NInf => True
  | NaN, NaN => True
  | _, _ => False
  end.

Definition Qltb (x y : Q) : bool := negb (Qle_bool y x).

(** Python's [a < b] on floats: every comparison with NaN is false. *)
Definition flt (a b : fnum) : bool :=
  match a, b with
  | NaN, _ | _, NaN => false
  | _, NInf => false
  | NInf, _ => true
  | PInf, _ => false
  | Fin _, PInf => true
  | Fin x, Fin y => Qltb x y
  end.

(** Python's [a > b]. *)
Definition fgt (a b : fnum) : bool := flt b a.

Definition fadd (a b : fnum) : fnum :=
  match a, b with
  | NaN, _ | _, NaN => NaN
  | PInf, NInf | NInf, PInf => NaN
  | PInf, _ | _, PInf => PInf
  | NInf, _ | _, NInf => NInf
  | Fin x, Fin y => Fin (x + y)%Q
  end.

(** *** Floating-point formats

    The three IEEE formats numpy offers: half, single and double precision.
    [precision] counts the bits of the significand; the finite values are
    below 2 ^ [emax] in magnitude. *)

Inductive float_format := binary16 | binary32 | binary64.

Definition precision (f : float_format) : Z :=
  match f with binary16 => 11 | binary32 => 24 | binary64 => 53 end.

Definition emax (f : float_format) : Z :=
  match f with binary16 => 16 | binary32 => 128 | binary64 => 1024 end.

(** [num / den] rounded to the nearest integer, a tie to the even one. *)
Definition round_half_even (num den : Z) : Z :=
  let q := (num / den)%Z in
  match (2 * (num mod den) ?= den)%Z with
  | Lt => q
  | Gt => (q + 1)%Z
  | Eq => if Z.even q then q else (q + 1)%Z
  end.

(** The largest [k] with 2 ^ k <= a / d, for positive [a] and [d]. *)
Definition floor_log2 (a d : Z) : Z :=
  let k := (Z.log2 a - Z.log2 d)%Z in
  if (a * 2 ^ Z.max 0 (- k) <? d * 2 ^ Z.max 0 k)%Z then (k - 1)%Z else k.

(** The value of format [f] that an operation with the exact result [x]
    delivers: [x] is brought to a multiple of 2 ^ e, where e leaves
    [precision f] significant bits or is the exponent of the subnormal
    numbers, and becomes infinite when that multiple is out of range. *)
Definition round_to (f : float_format) (x : Q) : fnum :=
  let x := Qred x in
  let a := Z.abs (Qnum x) in
  let d := Zpos (Qden x) in
  if (a =? 0)%Z then Fin 0
  else
    let e := Z.max (floor_log2 a d - (precision f - 1))
                   (3 - emax f - precision f) in
    let m := round_half_even (a * 2 ^ Z.max 0 (- e)) (d * 2 ^ Z.max 0 e) in
    if (2 ^ emax f <=? m * 2 ^ e)%Z then
      if (0 <? Qnum x)%Z then PInf else NInf
    else
      Fin (Qred (inject_Z (Z.sgn (Qnum x) * m * 2 ^ Z.max 0 e)
                 / inject_Z (2 ^ Z.max 0 (- e)))).

Arguments round_to : simpl never.

(** A rounding applied to a result that may already be infinite or NaN. *)
Definition fcast (r : Q -> fnum) (a : fnum) : fnum :=
  match a with
  | Fin q => r q
  | _ => a
  end.

(** [x + y] computed in format [calc] and stored in format [out]. *)
Definition add_in (out calc : float_format) (x y : fnum) : fnum :=
  fcast (round_to out) (fcast (round_to calc) (fadd x y)).

(** The format numpy computes in when the operands have formats [f] and
    [g]: the wider one. *)
Definition widest (f g : float_format) : float_format :=
  match f, g with
  | binary64, _ | _, binary64 => binary64
  | binary32, _ | _, binary32 => binary32
  | binary16, binary16 => binary16
  end.

(** *** Element types

    What the rules do with a tensor depends on its dtype only through
    [np.sum] and the division: a floating-point array is added up and
    divided in its own format; the signed integer types and bool are added
    up in int64, the unsigned ones in uint64 (numpy on a 64-bit platform),
    and the integer sum is converted to double precision for the
    division. *)

Inductive scalar_type :=
| Floating (f : float_format)
| SignedInteger
| UnsignedInteger.

Definition wrap_int64 (z : Z) : Z := ((z + 2 ^ 63) mod 2 ^ 64 - 2 ^ 63)%Z.

Definition wrap_uint64 (z : Z) : Z := (z mod 2 ^ 64)%Z.

(** The value an exact sum [x] takes in the accumulator of [np.sum]. *)
Definition in_accumulator (d : scalar_type) (x : Q) : fnum :=
  match d with
  | Floating f => round_to f x
  | SignedInteger => Fin (inject_Z (wrap_int64 (Qfloor x)))
  | UnsignedInteger => Fin (inject_Z (wrap_uint64 (Qfloor x)))
  end.

(** The format of [np.sum(tensor, axis=0) / tensor.shape[0]]. *)
Definition quotient_format (d : scalar_type) : float_format :=
  match d with
  | Floating f => f
  | _ => binary64
  end.

(** [x / n] in format [f] for a count [n]: both operands are brought to the
    format and the quotient is rounded.  A zero count gives numpy's result
    (a warning, not an exception): NaN for 0 / 0, an infinity otherwise. *)
Definition true_divide (f : float_format) (x : fnum) (n : nat) : fnum :=
  match fcast (round_to f) x, round_to f (inject_Z (Z.of_nat n)) with
  | NaN, _ => NaN
  | Fin q, Fin k =>
      if Qeq_bool k 0 then
        if Qeq_bool q 0 then NaN else if Qltb 0 q then PInf else NInf
      else round_to f (q / k)
  | PInf, Fin _ => PInf
  | NInf, Fin _ => NInf
  | Fin _, PInf => Fin 0
  | _, _ => NaN
  end.

(** ** numpy arrays

    An ndarray of shape (d0, d1, ..., dk) is kept batch-major: [rows] holds
    the d0 slices along the first axis, each flattened in row-major order;
    [axis1] is d1, [axes] is (d2, ..., dk) and [dtype] the element type.  A
    tensor with a single axis, of shape (n,), is kept as the column of shape
    (n, 1): the five classes that only flatten the tensor treat the two
    alike, and the two activation classes are modelled for tensors of at
    least two axes. *)

Record ndarray := mk_ndarray {
  dtype : scalar_type;
  axis1 : nat;
  axes : list nat;
  rows : list (list Q)
}.

(** [tensor.shape[0]] *)
Definition shape0 (t : ndarray) : nat := length (rows t).

(** [tensor.shape[1:]] *)
Definition trailing (t : ndarray) : list nat := axis1 t :: axes t.

(** The number of entries of an array of shape [s]. *)
Definition volume (s : list nat) : nat := fold_right Nat.mul 1 s.

(** The number of entries of each slice along the first axis. *)
Definition ncols (t : ndarray) : nat := volume (trailing t).

(** [tensor.flatten()] *)
Definition flatten (t : ndarray) : list Q := concat (rows t).

(** [tensor.size] *)
Definition size (t : ndarray) : nat := length (flatten t).

Definition Qsum (xs : list Q) : Q := fold_left Qplus xs 0%Q.

(** One slice added to the accumulator, entry by entry, in the accumulator
    type of [d]. *)
Fixpoint add_slice (d : scalar_type) (acc : list fnum) (row : list Q)
  : list fnum :=
  match acc, row with
  | a :: acc', x :: row' =>
      fcast (in_accumulator d) (fadd a (Fin x)) :: add_slice d acc' row'
  | _, _ => []
  end.

(** [np.sum(tensor, axis=0)]: the accumulator starts from zeros and the
    slices along the first axis are added to it one after the other; an
    empty batch leaves the zeros.  (numpy adds in blocks instead when the
    slices have a single entry and the batch has eight or more of them; the
    last bits of a sum that is rounded can then differ.  The statements
    about values ask for every addition to be exact.) *)
Definition np_sum_axis0 (t : ndarray) : list fnum :=
  fold_left (add_slice (dtype t)) (rows t) (repeat (Fin 0) (ncols t)).

(** The arrays the activation rules keep: floating-point arrays with the
    shape of one slice of the tensor, entries in row-major order. *)
Record farray := mk_farray {
  fmt : float_format;
  dims : list nat;
  items : list fnum
}.

(** [np.sum(tensor, axis=0) / tensor.shape[0]] *)
Definition batch_over_sum (t : ndarray) : farray :=
  let f := quotient_format (dtype t) in
  mk_farray f (trailing t)
            (map (fun s => true_divide f s (shape0 t)) (np_sum_axis0 t)).

(** [np.where(tensor <= 0)[0]]: one index per entry that is not positive; the
    rules only use its length. *)
Definition np_where_le0 (t : ndarray) : list Q :=
  filter (fun x => Qle_bool x 0) (flatten t).

(** [np.var(xs)]: mean of the squared deviations from the mean; NaN for an
    empty array.  The variance is kept exact: the rules compare, store and
    log it, and the statements about the pair of a step take the variances
    as they are. *)
Definition np_var (xs : list Q) : fnum :=
  match xs with
  | [] => NaN
  | _ :: _ =>
      let n := inject_Z (Z.of_nat (length xs)) in
      let m := (Qsum xs / n)%Q in
      Fin (Qsum (map (fun x => (x - m) * (x - m)) xs) / n)%Q
  end.

(** [np.min(tensor)] and [np.max(tensor)] raise [ValueError] on an array of
    size zero; [None] stands for that. *)
Definition np_min (t : ndarray) : option Q :=
  match flatten t with
  | [] => None
  | x :: xs => Some (fold_left Qmin xs x)
  end.

Definition np_max (t : ndarray) : option Q :=
  match flatten t with
  | [] => None
  | x :: xs => Some (fold_left Qmax xs x)
  end.

(** ** Strings *)

(** Python's [sub in s] on strings. *)
Fixpoint str_in (sub s : string) : bool :=
  if String.prefix sub s then true
  else match s with
       | EmptyString => false
       | String _ s' => str_in sub s'
       end.

(** ** Ordered dictionaries

    [collections.OrderedDict] and (from Python 3.7) [dict] keep keys in the
    order of their first insertion; assigning to a present key keeps its
    place.  An association list with unique keys models both. *)

Section ODict.
Variables (K V : Type).
Variable eqb : K -> K -> bool.

Definition odict := list (K * V).

Fixpoint od_get (k : K) (d : odict) : option V :=
  match d with
  | [] => None
  | (k', v) :: d' => if eqb k k' then Some v else od_get k d'
  end.

(** [k in d] *)
Definition od_mem (k : K) (d : odict) : bool :=
  match od_get k d with Some _ => true | None => false end.

(** [d[k] = v] *)
Fixpoint od_set (k : K) (v : V) (d : odict) : odict :=
  match d with
  | [] => [(k, v)]
  | (k', v') :: d' =>
      if eqb k k' then (k', v) :: d' else (k', v') :: od_set k v d'
  end.

(** [list(d.keys())] *)
Definition od_keys (d : odict) : list K := map fst d.
End ODict.

Arguments od_get {K V} eqb k d.
Arguments od_mem {K V} eqb k d.
Arguments od_set {K V} eqb k v d.
Arguments od_keys {K V} d.

(** ** Exceptions and the state-and-exception monad

    A Python statement run on the rule object either completes or raises;
    what it wrote to the object before raising stays written.  A computation
    therefore returns the new object together with its outcome. *)

Inductive exn :=
| TensorUnavailable            (* the trial cannot deliver the tensor value *)
| ValueError
| KeyError
| NoMoreData
| RuleEvaluationConditionMet.

Inductive result (A : Type) :=
| Ok (a : A)
| Raise (e : exn).

Arguments Ok {A} a.
Arguments Raise {A} e.

Definition M (S A : Type) : Type := S -> S * result A.

Definition ret {S A} (a : A) : M S A := fun s => (s, Ok a).

Definition bind {S A B} (m : M S A) (k : A -> M S B) : M S B :=
  fun s =>
    match m s with
    | (s', Ok a) => k a s'
    | (s', Raise e) => (s', Raise e)
    end.

Definition raise {S A} (e : exn) : M S A := fun s => (s, Raise e).

Definition gets {S A} (f : S -> A) : M S A := fun s => (s, Ok (f s)).

Definition modify {S} (f : S -> S) : M S unit := fun s => (f s, Ok tt).

Declare Scope monad_scope.
Delimit Scope monad_scope with monad.
Notation "x <- m ;; k" := (bind m (fun x => k))
  (at level 61, m at next level, right associativity) : monad_scope.
Notation "m ;; k" := (bind m (fun _ => k))
  (at level 61, right associativity) : monad_scope.
Local Open Scope monad_scope.

(** [if b: m] *)
Definition when {S} (b : bool) (m : M S unit) : M S unit :=
  if b then m else ret tt.

(** [try: body / except: handler] with a bare [except], which catches every
    exception. *)
Definition try_except {S} (body handler : M S unit) : M S unit :=
  fun s =>
    match body s with
    | (s', Ok _) => (s', Ok tt)
    | (s', Raise _) => handler s'
    end.

(** [try: body / except e: handler] *)
Definition exn_eqb (a b : exn) : bool :=
  match a, b with
  | TensorUnavailable, TensorUnavailable
  | ValueError, ValueError
  | KeyError, KeyError
  | NoMoreData, NoMoreData
  | RuleEvaluationConditionMet, RuleEvaluationConditionMet => true
  | _, _ => false
  end.

Definition try_except_only {S} (body : M S unit) (e : exn) (handler : M S unit)
  : M S unit :=
  fun s =>
    match body s with
    | (s', Ok _) => (s', Ok tt)
    | (s', Raise e') => if exn_eqb e' e then handler s' else (s', Raise e')
    end.

(** [for x in l: f x] *)
Fixpoint for_each {S A} (l : list A) (f : A -> M S unit) : M S unit :=
  match l with
  | [] => ret tt
  | x :: l' => f x ;; for_each l' f
  end.

(** ** The trial and the rule object *)

(** The two methods of [base_trial] the rules call.  [tensor_names re] is
    [base_trial.tensor_names(regex=re)] in iteration order;
    [tensor_value tname step] is [base_trial.tensor(tname).value(step)], with
    [None] when the call raises. *)
Record Trial := mk_Trial {
  tensor_names : string -> list string;
  tensor_value : string -> nat -> option ndarray
}.

(** Log messages; the percentage and the ratio rendered into the text are
    left out. *)
Inductive message :=
| OutputsSmallerThanZero (step : nat) (tname : string)
| InputsSmallerThanZero (tname : string)
| GradientsRange (tname : string) (lo hi : Q)
| CurrentRatio (step : nat) (lo hi : fnum)
| WeightsVariance (tname : string) (v : fnum)
| InputsVariance (tname : string) (v : fnum)
| CanNotFetch (tname : string).

Inductive log_record :=
| INFO (m : message)
| WARNING (m : message).

(** The fields of a rule object that [invoke_at_step] reads and writes;
    [T] is the type of [self.tensors]. *)
Record Rule (T : Type) := mk_Rule {
  tensors : T;
  logger : list log_record
}.

Arguments mk_Rule {T} tensors logger.

Section RuleOps.
Variable T : Type.

Definition logger_info (m : message) : M (Rule T) unit :=
  modify (fun self => mk_Rule (tensors self) (logger self ++ [INFO m])).

Definition logger_warning (m : message) : M (Rule T) unit :=
  modify (fun self => mk_Rule (tensors self) (logger self ++ [WARNING m])).

Definition set_tensors (f : T -> T) : M (Rule T) unit :=
  modify (fun self => mk_Rule (f (tensors self)) (logger self)).

(** [self.base_trial.tensor(tname).value(step)] *)
Definition fetch (bt : Trial) (tname : string) (step : nat)
  : M (Rule T) ndarray :=
  match tensor_value bt tname step with
  | Some t => ret t
  | None => raise TensorUnavailable
  end.

(** Reading [d[k]] raises [KeyError] when the key is absent. *)
Definition getitem {K V} (eqb : K -> K -> bool) (k : K) (d : odict K V)
  : M (Rule T) V :=
  match od_get eqb k d with
  | Some v => ret v
  | None => raise KeyError
  end.
End RuleOps.

Arguments logger_info {T} m.
Arguments logger_warning {T} m.
Arguments set_tensors {T} f.
Arguments fetch {T} bt tname step.
Arguments getitem {T K V} eqb k d.

(** ** Dictionaries keyed by tensor name, then by step

    Six of the seven rules keep [self.tensors[tname][step]]. *)

Section NameStore.
Variable V : Type.

Definition name_store := odict string (odict nat V).

(** [tname in self.tensors] *)
Definition has_name (tname : string) : M (Rule name_store) bool :=
  gets (fun self => od_mem String.eqb tname (tensors self)).

(** [self.tensors[tname]] *)
Definition tensors_at (tname : string) : M (Rule name_store) (odict nat V) :=
  d <- gets (fun self => tensors self) ;;
  getitem String.eqb tname d.

(** [self.tensors[tname] = {}] (or [collections.OrderedDict()]) *)
Definition new_name (tname : string) : M (Rule name_store) unit :=
  set_tensors (od_set String.eqb tname []).

(** [self.tensors[tname][step] = v] *)
Definition assign (tname : string) (step : nat) (v : V)
  : M (Rule name_store) unit :=
  d <- tensors_at tname ;;
  set_tensors (od_set String.eqb tname (od_set Nat.eqb step v d)).
End NameStore.

Arguments has_name {V} tname.
Arguments tensors_at {V} tname.
Arguments new_name {V} tname.
Arguments assign {V} tname step v.

(** What an activation rule keeps per (name, step): the Python int it starts
    from, then the array the batch averages are added to. *)
Inductive cell :=
| CInt (z : Z)
| CArr (a : farray).

(** *** Broadcasting *)

(** [l] cut into [n] pieces of [k] entries. *)
Fixpoint chunks {A} (n k : nat) (l : list A) : list (list A) :=
  match n with
  | O => []
  | S n' => firstn k l :: chunks n' k (skipn k l)
  end.

(** The pieces put together, unless one of them is missing. *)
Fixpoint gather {A} (l : list (option (list A))) : option (list A) :=
  match l with
  | [] => Some []
  | None :: _ => None
  | Some x :: l' =>
      match gather l' with
      | Some r => Some (x ++ r)
      | None => None
      end
  end.

(** The entries of an array of shape [sb] repeated so as to fill the shape
    [sa] of the same number of axes: an axis of [sb] has the length of the
    axis of [sa], or length 1 and its one slice is used for every index. *)
Fixpoint stretch {A} (sa sb : list nat) (l : list A) : option (list A) :=
  match sa, sb with
  | [], [] => Some l
  | da :: sa', db :: sb' =>
      if db =? da then
        gather (map (stretch sa' sb') (chunks db (volume sb') l))
      else if db =? 1 then
        option_map (fun r => concat (repeat r da)) (stretch sa' sb' l)
      else None
  | _, _ => None
  end.

(** What an in-place operation on an array of shape [sa] reads from an
    operand of shape [sb]: numpy lines the shapes up at their last axes and
    treats missing leading axes as axes of length 1; an operand that does
    not fit the shape of the target cannot be used. *)
Definition broadcast_to {A} (sa sb : list nat) (l : list A)
  : option (list A) :=
  if length sb <=? length sa then
    stretch sa (repeat 1 (length sa - length sb) ++ sb) l
  else None.

Fixpoint zip_with {A B C} (f : A -> B -> C) (u : list A) (v : list B)
  : list C :=
  match u, v with
  | x :: u', y :: v' => f x y :: zip_with f u' v'
  | _, _ => []
  end.

(** The value of [c += b] for an array [b], when numpy accepts it.  A Python
    int is added to every entry in the format of [b], giving a new array of
    the shape of [b].  An array is added to in place: it keeps its shape
    and its format, [b] is broadcast to that shape, and each sum is
    computed in the wider of the two formats. *)
Definition iadd_pure (c : cell) (b : farray) : option cell :=
  match c with
  | CInt z =>
      Some (CArr (mk_farray (fmt b) (dims b)
                    (map (add_in (fmt b) (fmt b)
                            (round_to (fmt b) (inject_Z z)))
                         (items b))))
  | CArr a =>
      match broadcast_to (dims a) (dims b) (items b) with
      | Some ys =>
          Some (CArr (mk_farray (fmt a) (dims a)
                        (zip_with (add_in (fmt a) (widest (fmt a) (fmt b)))
                                  (items a) ys)))
      | None => None
      end
  end.

(** [c += b]: numpy raises [ValueError] for an operand it cannot broadcast
    to the shape of the array. *)
Definition iadd {S} (c : cell) (b : farray) : M S cell :=
  match iadd_pure c b with
  | Some c' => ret c'
  | None => raise ValueError
  end.

Definition from_option {S A} (e : exn) (o : option A) : M S A :=
  match o with
  | Some a => ret a
  | None => raise e
  end.

(** ** The rule classes *)

Module ActivationOutputs.
Definition store := name_store cell.

(** [__init__]: [self.tensors = collections.OrderedDict()] *)
Definition init : Rule store := mk_Rule [] [].

Definition try_body (bt : Trial) (step : nat) (tname : string)
  : M (Rule store) unit :=
  tensor <- fetch bt tname step ;;
  present <- has_name tname ;;
  when (negb present) (new_name tname) ;;
  d <- tensors_at tname ;;
  when (negb (od_mem Nat.eqb step d)) (assign tname step (CInt 0)) ;;
  let neg_values := np_where_le0 tensor in
  when (0 <? length neg_values)
       (logger_info (OutputsSmallerThanZero step tname)) ;;
  let batch_over_sum := batch_over_sum tensor in
  d <- tensors_at tname ;;
  c <- getitem Nat.eqb step d ;;
  c' <- iadd c batch_over_sum ;;
  assign tname step c'.

Definition invoke_at_step (bt : Trial) (step : nat) : M (Rule store) bool :=
  for_each (tensor_names bt ".*relu_output") (fun tname =>
    when (negb (str_in "gradients" tname))
      (try_except (try_body bt step tname)
                  (logger_warning (CanNotFetch tname)))) ;;
  ret false.
End ActivationOutputs.

Module ActivationInputs.
Definition store := name_store cell.

Definition init : Rule store := mk_Rule [] [].

Definition try_body (bt : Trial) (step : nat) (tname : string)
  : M (Rule store) unit :=
  tensor <- fetch bt tname step ;;
  present <- has_name tname ;;
  when (negb present) (new_name tname) ;;
  d <- tensors_at tname ;;
  when (negb (od_mem Nat.eqb step d)) (assign tname step (CInt 0)) ;;
  let neg_values := np_where_le0 tensor in
  when (0 <? length neg_values)
       (logger_info (InputsSmallerThanZero tname)) ;;
  let batch_over_sum := batch_over_sum tensor in
  d <- tensors_at tname ;;
  c <- getitem Nat.eqb step d ;;
  c' <- iadd c batch_over_sum ;;
  assign tname step c'.

Definition invoke_at_step (bt : Trial) (step : nat) : M (Rule store) bool :=
  for_each (tensor_names bt ".*relu_input") (fun tname =>
    when (negb (str_in "gradients" tname))
      (try_except (try_body bt step tname)
                  (logger_warning (CanNotFetch tname)))) ;;
  ret false.
End ActivationInputs.

Module GradientsLayer.
Definition store := name_store ndarray.

Definition init : Rule store := mk_Rule [] [].

Definition try_body (bt : Trial) (step : nat) (tname : string)
  : M (Rule store) unit :=
  tensor <- fetch bt tname step ;;
  present <- has_name tname ;;
  when (negb present) (new_name tname) ;;
  lo <- from_option ValueError (np_min tensor) ;;
  hi <- from_option ValueError (np_max tensor) ;;
  logger_info (GradientsRange tname lo hi) ;;
  assign tname step tensor.

Definition invoke_at_step (bt : Trial) (step : nat) : M (Rule store) bool :=
  for_each (tensor_names bt ".*gradient") (fun tname =>
    try_except (try_body bt step tname)
               (logger_warning (CanNotFetch tname))) ;;
  ret false.
End GradientsLayer.

Module GradientsAcrossLayers.
(** [self.tensors[step]] is the two-element list [[min, max]]. *)
Definition store := odict nat (fnum * fnum).

Definition init : Rule store := mk_Rule [] [].

(** [self.tensors[step]] *)
Definition tensors_at_step (step : nat) : M (Rule store) (fnum * fnum) :=
  d <- gets (fun self => tensors self) ;;
  getitem Nat.eqb step d.

Definition try_body (bt : Trial) (step : nat) (tname : string)
  : M (Rule store) unit :=
  tensor <- fetch bt tname step ;;
  present <- gets (fun self => od_mem Nat.eqb step (tensors self)) ;;
  when (negb present) (set_tensors (od_set Nat.eqb step (PInf, Fin 0))) ;;
  let variance := np_var (flatten tensor) in
  p <- tensors_at_step step ;;
  (if flt variance (fst p) then
     set_tensors (od_set Nat.eqb step (variance, snd p))
   else if fgt variance (snd p) then
     set_tensors (od_set Nat.eqb step (fst p, variance))
   else ret tt) ;;
  p <- tensors_at_step step ;;
  logger_info (CurrentRatio step (fst p) (snd p)).

Definition invoke_at_step (bt : Trial) (step : nat) : M (Rule store) bool :=
  for_each (tensor_names bt ".*gradient") (fun tname =>
    try_except (try_body bt step tname)
               (logger_warning (CanNotFetch tname))) ;;
  ret false.
End GradientsAcrossLayers.

Module WeightRatio.
Definition store := name_store ndarray.

Definition init : Rule store := mk_Rule [] [].

Definition try_body (bt : Trial) (step : nat) (tname : string)
  : M (Rule store) unit :=
  tensor <- fetch bt tname step ;;
  present <- has_name tname ;;
  when (negb present) (new_name tname) ;;
  logger_info (WeightsVariance tname (np_var (flatten tensor))) ;;
  assign tname step tensor.

Definition invoke_at_step (bt : Trial) (step : nat) : M (Rule store) bool :=
  for_each (tensor_names bt ".*weight") (fun tname =>
    when (negb (str_in "gradient" tname))
      (try_except (try_body bt step tname)
                  (logger_warning (CanNotFetch tname)))) ;;
  ret false.
End WeightRatio.

Module Inputs.
Definition store := name_store ndarray.

Definition init : Rule store := mk_Rule [] [].

Definition try_body (bt : Trial) (step : nat) (tname : string)
  : M (Rule store) unit :=
  tensor <- fetch bt tname step ;;
  present <- has_name tname ;;
  when (negb present) (new_name tname) ;;
  logger_info (InputsVariance tname (np_var (flatten tensor))) ;;
  assign tname step tensor.

Definition invoke_at_step (bt : Trial) (step : nat) : M (Rule store) bool :=
  for_each (tensor_names bt ".*input") (fun tname =>
    when (negb (str_in "relu" tname))
      (try_except (try_body bt step tname)
                  (logger_warning (CanNotFetch tname)))) ;;
  ret false.
End Inputs.

Module Outputs.
Definition store := name_store ndarray.

Definition init : Rule store := mk_Rule [] [].

(** The message of this class also reads "has inputs with variance". *)
Definition try_body (bt : Trial) (step : nat) (tname : string)
  : M (Rule store) unit :=
  tensor <- fetch bt tname step ;;
  present <- has_name tname ;;
  when (negb present) (new_name tname) ;;
  logger_info (InputsVariance tname (np_var (flatten tensor))) ;;
  assign tname step tensor.

Definition invoke_at_step (bt : Trial) (step : nat) : M (Rule store) bool :=
  for_each (tensor_names bt ".*output") (fun tname =>
    when (negb (str_in "relu" tname))
      (try_except (try_body bt step tname)
                  (logger_warning (CanNotFetch tname)))) ;;
  ret false.
End Outputs.

(** ** The rule classes as one family *)

Inductive rule_class :=
| ActivationOutputs
| ActivationInputs
| GradientsLayer
| GradientsAcrossLayers
| WeightRatio
| Inputs
| Outputs.

(** The type of [self.tensors] in each class. *)
Definition store_of (c : rule_class) : Type :=
  match c with
  | ActivationOutputs => ActivationOutputs.store
  | ActivationInputs => ActivationInputs.store
  | GradientsLayer => GradientsLayer.store
  | GradientsAcrossLayers => GradientsAcrossLayers.store
  | WeightRatio => WeightRatio.store
  | Inputs => Inputs.store
  | Outputs => Outputs.store
  end.

Definition init (c : rule_class) : Rule (store_of c) :=
  match c with
  | ActivationOutputs => ActivationOutputs.init
  | ActivationInputs => ActivationInputs.init
  | GradientsLayer => GradientsLayer.init
  | GradientsAcrossLayers => GradientsAcrossLayers.init
  | WeightRatio => WeightRatio.init
  | Inputs => Inputs.init
  | Outputs => Outputs.init
  end.

Definition invoke_at_step (c : rule_class)
  : Trial -> nat -> M (Rule (store_of c)) bool :=
  match c with
  | ActivationOutputs => ActivationOutputs.invoke_at_step
  | ActivationInputs => ActivationInputs.invoke_at_step
  | GradientsLayer => GradientsLayer.invoke_at_step
  | GradientsAcrossLayers => GradientsAcrossLayers.invoke_at_step
  | WeightRatio => WeightRatio.invoke_at_step
  | Inputs => Inputs.invoke_at_step
  | Outputs => Outputs.invoke_at_step
  end.

(** The regular expression each class passes to [tensor_names]. *)
Definition regex_of (c : rule_class) : string :=
  match c with
  | ActivationOutputs => ".*relu_output"
  | ActivationInputs => ".*relu_input"
  | GradientsLayer | GradientsAcrossLayers => ".*gradient"
  | WeightRatio => ".*weight"
  | Inputs => ".*input"
  | Outputs => ".*output"
  end.

(** The substring whose presence in a name makes the class skip it. *)
Definition excluded_of (c : rule_class) : option string :=
  match c with
  | ActivationOutputs | ActivationInputs => Some "gradients"
  | GradientsLayer | GradientsAcrossLayers => None
  | WeightRatio => Some "gradient"
  | Inputs | Outputs => Some "relu"
  end.

Definition not_excluded (c : rule_class) (tname : string) : bool :=
  match excluded_of c with
  | Some sub => negb (str_in sub tname)
  | None => true
  end.

(** The names a class works on at a step: those the trial returns for its
    regular expression, without the excluded ones. *)
Definition selected (c : rule_class) (bt : Trial) : list string :=
  filter (not_excluded c) (tensor_names bt (regex_of c)).

(** ** What the rule object exposes as [rule.tensors] *)

Inductive output :=
| CellsByName (m : name_store cell)
| ArraysByName (m : name_store ndarray)
| MinMaxByStep (m : odict nat (fnum * fnum)).

Definition exposed (c : rule_class) : store_of c -> output :=
  match c with
  | ActivationOutputs | ActivationInputs => CellsByName
  | GradientsAcrossLayers => MinMaxByStep
  | GradientsLayer | WeightRatio | Inputs | Outputs => ArraysByName
  end.

Inductive value :=
| VCell (c : cell)
| VArray (t : ndarray)
| VMinMax (p : fnum * fnum).

(** [rule.tensors[tname][step]], when both keys exist. *)
Definition entry (o : output) (tname : string) (step : nat) : option value :=
  match o with
  | CellsByName m =>
      match od_get String.eqb tname m with
      | Some d => option_map VCell (od_get Nat.eqb step d)
      | None => None
      end
  | ArraysByName m =>
      match od_get String.eqb tname m with
      | Some d => option_map VArray (od_get Nat.eqb step d)
      | None => None
      end
  | MinMaxByStep _ => None
  end.

(** [rule.tensors[step]], for a dictionary keyed by step. *)
Definition step_entry (o : output) (step : nat) : option value :=
  match o with
  | MinMaxByStep m => option_map VMinMax (od_get Nat.eqb step m)
  | _ => None
  end.

(** The record a class keeps for a tensor name at a step: the entry under
    (name, step), or, for the class keyed by step alone, the entry of the
    step. *)
Definition recorded (o : output) (tname : string) (step : nat) : option value :=
  match o with
  | MinMaxByStep _ => step_entry o step
  | _ => entry o tname step
  end.

(** The tensor names among the keys of [rule.tensors]. *)
Definition name_keys (o : output) : list string :=
  match o with
  | CellsByName m => od_keys m
  | ArraysByName m => od_keys m
  | MinMaxByStep _ => []
  end.

(** The steps under a tensor name. *)
Definition steps_of (o : output) (tname : string) : list nat :=
  match o with
  | CellsByName m =>
      match od_get String.eqb tname m with Some d => od_keys d | None => [] end
  | ArraysByName m =>
      match od_get String.eqb tname m with Some d => od_keys d | None => [] end
  | MinMaxByStep _ => []
  end.

(** The steps among the keys of [rule.tensors]. *)
Definition step_keys (o : output) : list nat :=
  match o with
  | MinMaxByStep m => od_keys m
  | _ => []
  end.

(** ** The driver and the notebook cell *)

(** One notification: the trial as it stands when a step becomes available,
    and the step. *)
Definition notification : Type := Trial * nat.

(** Modelled from the spec: [invoke_rule] belongs to the smdebug library and
    is not part of the repository.  The spec gives its contract: it hands the
    steps to the rule one by one as they become available and ends with the
    "no more data" signal; the notebook adds that a rule returning [True]
    reports an issue found. *)
Fixpoint invoke_rule {T} (iat : Trial -> nat -> M (Rule T) bool)
    (trace : list notification) : M (Rule T) unit :=
  match trace with
  | [] => raise NoMoreData
  | (bt, step) :: rest =>
      found <- iat bt step ;;
      if found then raise RuleEvaluationConditionMet
      else invoke_rule iat rest
  end.

(** The state of a notebook cell: the rule object and the printed lines. *)
Record Session (T : Type) := mk_Session {
  rule : Rule T;
  stdout : list string
}.

Arguments mk_Session {T} rule stdout.

Definition on_rule {T A} (m : M (Rule T) A) : M (Session T) A :=
  fun s =>
    match m (rule s) with
    | (r, o) => (mk_Session r (stdout s), o)
    end.

Definition print {T} (line : string) : M (Session T) unit :=
  modify (fun s => mk_Session (rule s) (stdout s ++ [line])).

Definition expected_message : string :=
  "The training has ended and there is no more data to be analyzed. This is expected behavior.".

(** [rule = C(trial1)], then
    [try: invoke_rule(rule) / except NoMoreData: print(...)]. *)
Definition run_cell (c : rule_class) (trace : list notification)
  : Session (store_of c) * result unit :=
  try_except_only (on_rule (invoke_rule (invoke_at_step c) trace))
                  NoMoreData
                  (print expected_message)
                  (mk_Session (init c) []).

(** The rule object after [invoke_at_step] has run on each notification of a
    trace in turn. *)
Definition process (c : rule_class) (trace : list notification)
    (self : Rule (store_of c)) : Rule (store_of c) :=
  fold_left (fun s n => fst (invoke_at_step c (fst n) (snd n) s)) trace self.

(** ** One loop iteration as a function on [self.tensors]

    The functions below describe what one pass through the loop body does to
    the dictionary, given the outcome [o] of the fetch.  The section
    "Agreement" proves that the monadic code computes exactly these. *)

Definition inner_of {V} (tname : string) (m : name_store V) : odict nat V :=
  match od_get String.eqb tname m with
  | Some d => d
  | None => []
  end.

(** The dictionary after [self.tensors[tname][step] = v], the name being
    created on the way if it is new. *)
Definition put {V} (tname : string) (step : nat) (v : V) (m : name_store V)
  : name_store V :=
  od_set String.eqb tname (od_set Nat.eqb step v (inner_of tname m)) m.

(** The dictionary after [if tname not in self.tensors: self.tensors[tname] = {}]. *)
Definition touch {V} (tname : string) (m : name_store V) : name_store V :=
  if od_mem String.eqb tname m then m else od_set String.eqb tname [] m.

Definition cell_at (tname : string) (step : nat) (m : name_store cell) : cell :=
  match od_get Nat.eqb step (inner_of tname m) with
  | Some c => c
  | None => CInt 0
  end.

(** ActivationOutputs and ActivationInputs. *)
Definition acc_next (o : option ndarray) (tname : string) (step : nat)
    (m : name_store cell) : name_store cell :=
  match o with
  | None => m
  | Some t =>
      match iadd_pure (cell_at tname step m) (batch_over_sum t) with
      | Some c' => put tname step c' m
      | None => m
      end
  end.

(** WeightRatio, Inputs and Outputs. *)
Definition raw_next (o : option ndarray) (tname : string) (step : nat)
    (m : name_store ndarray) : name_store ndarray :=
  match o with
  | None => m
  | Some t => put tname step t m
  end.

(** GradientsLayer: the range in the log message cannot be computed for an
    array of size zero, and the exception skips the assignment. *)
Definition range_next (o : option ndarray) (tname : string) (step : nat)
    (m : name_store ndarray) : name_store ndarray :=
  match o with
  | None => m
  | Some t =>
      match np_min t with
      | Some _ => put tname step t m
      | None => touch tname m
      end
  end.

(** GradientsAcrossLayers: the [if]/[elif] on the pair of the step. *)
Definition minmax_update (p : fnum * fnum) (variance : fnum) : fnum * fnum :=
  if flt variance (fst p) then (variance, snd p)
  else if fgt variance (snd p) then (fst p, variance)
  else p.

Definition minmax_at (step : nat) (m : odict nat (fnum * fnum)) : fnum * fnum :=
  match od_get Nat.eqb step m with
  | Some p => p
  | None => (PInf, Fin 0)
  end.

Definition minmax_next (o : option ndarray) (step : nat)
    (m : odict nat (fnum * fnum)) : odict nat (fnum * fnum) :=
  match o with
  | None => m
  | Some t =>
      od_set Nat.eqb step
             (minmax_update (minmax_at step m) (np_var (flatten t))) m
  end.

Definition next (c : rule_class) (bt : Trial) (step : nat) (tname : string)
  : store_of c -> store_of c :=
  match c with
  | ActivationOutputs | ActivationInputs =>
      acc_next (tensor_value bt tname step) tname step
  | GradientsLayer => range_next (tensor_value bt tname step) tname step
  | GradientsAcrossLayers => minmax_next (tensor_value bt tname step) step
  | WeightRatio | Inputs | Outputs =>
      raw_next (tensor_value bt tname step) tname step
  end.

(** [self.tensors] after [invoke_at_step]. *)
Definition step_tensors (c : rule_class) (bt : Trial) (step : nat)
    (m : store_of c) : store_of c :=
  fold_left (fun m tname => next c bt step tname m) (selected c bt) m.

(** [self.tensors] after a whole trace. *)
Definition trace_tensors (c : rule_class) (trace : list notification)
    (m : store_of c) : store_of c :=
  fold_left (fun m n => step_tensors c (fst n) (snd n) m) trace m.

(** ** Sample inputs *)

(** The tensors of the training job are single-precision arrays. *)
Definition float32 : scalar_type := Floating binary32.


(** A column vector: shape (n, 1). *)
Definition column (xs : list Q) : ndarray :=
  mk_ndarray float32 1 [] (map (fun x => [x]) xs).

(** Shape (4, 3), every entry 1. *)
Definition ones_4_3 : ndarray :=
  mk_ndarray float32 3 [] (repeat (repeat 1%Q 3) 4).

(** An array of size zero, shape (0, 1). *)
Definition empty_array : ndarray := mk_ndarray float32 1 [] [].

(** Arrays with variance 0.1, 0.5 and 0.2. *)
Definition var_0_1 : ndarray := column [1 # 2; - (1 # 2); 0; 0; 0]%Q.
Definition var_0_5 : ndarray := column [1; - 1; 0; 0]%Q.
Definition var_0_2 : ndarray := column [1; - 1; 0; 0; 0; 0; 0; 0; 0; 0]%Q.

Definition lookup_names (table : list (string * list string)) (re : string)
  : list string :=
  match od_get String.eqb re table with
  | Some l => l
  | None => []
  end.

Definition lookup_value (table : list (string * ndarray)) (tname : string)
  : option ndarray :=
  od_get String.eqb tname table.

(** A trial with two ReLU outputs, the second of which cannot be fetched,
    the gradient of the first, and three weight gradients whose variances
    are 0.1, 0.5 and 0.2 in this order. *)
Definition sample_trial : Trial :=
  mk_Trial
    (lookup_names
       [(".*relu_output",
         ["conv0_relu_output_0"; "conv1_relu_output_0";
          "gradients/conv0_relu_output_0"]);
        (".*relu_input", ["conv0_relu_input_0"]);
        (".*gradient",
         ["gradient/conv0_weight"; "gradient/conv1_weight";
          "gradient/dense0_weight"]);
        (".*weight", ["conv0_weight"; "gradient/conv0_weight"]);
        (".*input", ["conv0_input_0"; "conv0_relu_input_0"]);
        (".*output", ["conv0_output_0"; "conv0_relu_output_0"])])
    (fun tname _ =>
       lookup_value
         [("conv0_relu_output_0", ones_4_3);
          ("gradients/conv0_relu_output_0", ones_4_3);
          ("conv0_relu_input_0", ones_4_3);
          ("gradient/conv0_weight", var_0_1);
          ("gradient/conv1_weight", var_0_5);
          ("gradient/dense0_weight", var_0_2);
          ("conv0_weight", var_0_5);
          ("conv0_input_0", var_0_2);
          ("conv0_output_0", var_0_1)]
         tname).

(** The same gradients listed with decreasing variance. *)
Definition decreasing_trial : Trial :=
  mk_Trial
    (lookup_names
       [(".*gradient",
         ["gradient/conv1_weight"; "gradient/dense0_weight";
          "gradient/conv0_weight"])])
    (tensor_value sample_trial).

(** A trial whose only gradient has size zero. *)
Definition empty_gradient_trial : Trial :=
  mk_Trial
    (lookup_names [(".*gradient", ["gradient/conv0_weight"])])
    (fun tname _ => lookup_value [("gradient/conv0_weight", empty_array)] tname).

(** A trial with one ReLU output whose entries are 0 or positive, none
    negative, and one whose entries are all positive. *)
Definition zero_output_trial : Trial :=
  mk_Trial
    (lookup_names
       [(".*relu_output", ["conv0_relu_output_0"; "conv1_relu_output_0"])])
    (fun tname _ =>
       lookup_value
         [("conv0_relu_output_0", mk_ndarray float32 2 [] [[0; 1]; [0; 2]]%Q);
          ("conv1_relu_output_0", ones_4_3)]
         tname).



(** The trial with one tensor name taken out of every listing. *)
Definition without (tname : string) (bt : Trial) : Trial :=
  mk_Trial
    (fun re => filter (fun x => negb (String.eqb x tname)) (tensor_names bt re))
    (tensor_value bt).

Definition is_some {A} (o : option A) : bool :=
  match o with Some _ => true | None => false end.

(** Whether the body reaches its assignment once the fetch has delivered
    [t]: GradientsLayer first computes the range of [t] for its log line. *)
Definition writes (c : rule_class) (t : ndarray) : bool :=
  match c with
  | GradientsLayer => is_some (np_min t)
  | _ => true
  end.

(** ** The batch average in the words of the specification *)






(** An operation [r] whose exact result is [x] delivers [x] itself: nothing
    is rounded off and nothing wraps around. *)
Definition exact (r : Q -> fnum) (x : Q) : Prop := feq (r x) (Fin x).


(** The variances GradientsAcrossLayers sees at a step, in the order in
    which it fetches the tensors. *)
Definition variance_of (bt : Trial) (step : nat) (tname : string)
  : list fnum :=
  match tensor_value bt tname step with
  | Some t => [np_var (flatten t)]
  | None => []
  end.

Definition fetched_variances (bt : Trial) (step : nat) : list fnum :=
  flat_map (variance_of bt step) (selected GradientsAcrossLayers bt).

(** ** The order of a run

    The loop iterations that get past the fetch, in the order in which a run
    goes through them, and the order in which keys are met for the first
    time. *)

Definition add_once {K} (eqb : K -> K -> bool) (k : K) (l : list K) : list K :=
  if existsb (eqb k) l then l else l ++ [k].

(** The elements of [l] in the order of their first occurrence. *)
Definition encounter_order {K} (eqb : K -> K -> bool) (l : list K) : list K :=
  fold_left (fun acc k => add_once eqb k acc) l [].

(** The names a class fetches successfully at a step. *)
Definition fetched_names (c : rule_class) (bt : Trial) (step : nat)
  : list string :=
  filter (fun n => is_some (tensor_value bt n step)) (selected c bt).

(** The names for which the body reaches its assignment. *)
Definition written_names (c : rule_class) (bt : Trial) (step : nat)
  : list string :=
  filter (fun n => match tensor_value bt n step with
                   | Some t => writes c t
                   | None => false
                   end)
         (selected c bt).

(** The (name, step) pairs a run aggregates, one per loop iteration whose
    fetch succeeds. *)
Definition fetched (c : rule_class) (trace : list notification)
  : list (string * nat) :=
  flat_map (fun x => map (fun n => (n, snd x))
                         (fetched_names c (fst x) (snd x))) trace.

Definition written (c : rule_class) (trace : list notification)
  : list (string * nat) :=
  flat_map (fun x => map (fun n => (n, snd x))
                         (written_names c (fst x) (snd x))) trace.

(** The steps written under one name, in processing order. *)
Definition steps_written (c : rule_class) (trace : list notification)
    (tname : string) : list nat :=
  map snd (filter (fun p => String.eqb (fst p) tname) (written c trace)).

Definition keyed_by_name (c : rule_class) : bool :=
  match c with
  | GradientsAcrossLayers => false
  | _ => true
  end.

(** Every pass through a loop body that a run makes: the trial, the step
    and the tensor name. *)
Definition iterations (c : rule_class) (trace : list notification)
  : list (Trial * nat * string) :=
  flat_map (fun x => map (fun n => (fst x, snd x, n)) (selected c (fst x)))
           trace.

(** The [try] statement of one loop iteration: the body of the class under
    its bare [except] clause. *)
Definition guarded (c : rule_class) (bt : Trial) (step : nat) (tname : string)
  : M (Rule (store_of c)) unit :=
  match c with
  | ActivationOutputs =>
      try_except (ActivationOutputs.try_body bt step tname)
                 (logger_warning (CanNotFetch tname))
  | ActivationInputs =>
      try_except (ActivationInputs.try_body bt step tname)
                 (logger_warning (CanNotFetch tname))
  | GradientsLayer =>
      try_except (GradientsLayer.try_body bt step tname)
                 (logger_warning (CanNotFetch tname))
  | GradientsAcrossLayers =>
      try_except (GradientsAcrossLayers.try_body bt step tname)
                 (logger_warning (CanNotFetch tname))
  | WeightRatio =>
      try_except (WeightRatio.try_body bt step tname)
                 (logger_warning (CanNotFetch tname))
  | Inputs =>
      try_except (Inputs.try_body bt step tname)
                 (logger_warning (CanNotFetch tname))
  | Outputs =>
      try_except (Outputs.try_body bt step tname)
                 (logger_warning (CanNotFetch tname))
  end.

(** The rule object after the [try] statements of the iterations [its] have
    run one after the other. *)
Definition run_iterations (c : rule_class) (its : list (Trial * nat * string))
    (self : Rule (store_of c)) : Rule (store_of c) :=
  fst (for_each its
         (fun x => guarded c (fst (fst x)) (snd (fst x)) (snd x)) self).

(** The (tensor name, step) pairs of the iterations of a run, in order. *)
Definition aggregated (c : rule_class) (trace : list notification)
  : list (string * nat) :=
  map (fun x => (snd x, snd (fst x))) (iterations c trace).

(** Two trials list the same names and deliver the same values except,
    possibly, for the tensor name [tname]. *)
Definition same_but (tname : string) (bt bt' : Trial) : Prop :=
  (forall re, tensor_names bt re = tensor_names bt' re)
  /\ (forall n step, n <> tname ->
        tensor_value bt n step = tensor_value bt' n step).

(** Two traces deliver the same steps, with trials that differ at most in
    the values of [tname]. *)
Definition same_trace_but (tname : string) (trace trace' : list notification)
  : Prop :=
  Forall2 (fun x y => snd x = snd y /\ same_but tname (fst x) (fst y))
          trace trace'.

(** A trace that delivers step 0 twice. *)
Definition repeated_trace : list notification :=
  [(sample_trial, 0); (sample_trial, 0)].

(** ** Notions used in the statements *)

(** The shape shared by the seven agreement lemmas: the guarded body run on
    [self] leaves [nx (tensors self)], appends to the log, completes
    normally, and logs the warning when the fetch fails. *)
Definition runs_as {T} (body : M (Rule T) unit) (nx : T -> T)
    (o : option ndarray) (tname : string) : Prop :=
  forall self, exists msgs,
    body self = (mk_Rule (nx (tensors self)) (logger self ++ msgs), Ok tt)
    /\ (o = None -> msgs = [WARNING (CanNotFetch tname)]).

(** A name the class works on whose fetch fails at the step. *)
Definition fetch_fails (c : rule_class) (bt : Trial) (step : nat)
    (tname : string) : Prop :=
  not_excluded c tname = true /\ tensor_value bt tname step = None.

(** [self.tensors[n][s]], when both keys exist. *)
Definition lookup2 {V} (n : string) (s : nat) (m : name_store V) : option V :=
  match od_get String.eqb n m with
  | Some d => od_get Nat.eqb s d
  | None => None
  end.

(** ** The cell that waits for the training job

    [describe_training_job] is a call to the SageMaker service; the cell only
    reads two fields of its answer. *)

Record Description := mk_Description {
  TrainingJobStatus : string;
  SecondaryStatus : string
}.

(** What the cell reads and writes: the variable [description], the lines it
    prints and the seconds it spends in [time.sleep]. *)
Record Waiting := mk_Waiting {
  description : Description;
  printed : list string;
  slept : nat
}.

(** ["Current job status: [PrimaryStatus: {}, SecondaryStatus: {}]".format(...)] *)
Definition status_line (d : Description) : string :=
  ("Current job status: [PrimaryStatus: " ++ TrainingJobStatus d
   ++ ", SecondaryStatus: " ++ SecondaryStatus d ++ "]")%string.

(** [description["SecondaryStatus"] in {"Training", "Completed"}] *)
Definition tensors_accessible (d : Description) : bool :=
  String.eqb (SecondaryStatus d) "Training"
  || String.eqb (SecondaryStatus d) "Completed".

(** The [while] loop.  [answers] are the answers the service gives to the
    successive calls of [describe_training_job].  The loop returns its state
    on leaving together with the answers it did not ask for; a loop that has
    used up all the answers without leaving is still waiting: [None]. *)
Fixpoint poll (answers : list Description) (w : Waiting)
  : option (Waiting * list Description) :=
  if tensors_accessible (description w) then Some (w, answers)
  else
    match answers with
    | [] => None
    | d :: rest =>
        poll rest (mk_Waiting d (printed w ++ [status_line d]) (slept w + 15))
    end.

(** [if description["TrainingJobStatus"] != "Completed": while ...] *)
Definition wait_for_training (answers : list Description) (w : Waiting)
  : option (Waiting * list Description) :=
  if negb (String.eqb (TrainingJobStatus (description w)) "Completed")
  then poll answers w
  else Some (w, answers).

(** ** The cells that compare the two training jobs *)





(** ** Further notions used in the statements *)


(** Some notification of the step fetches the tensor name successfully and
    reaches the assignment. *)
Definition written_somewhere (c : rule_class) (trace : list notification)
    (tname : string) (step : nat) : Prop :=
  exists bt t,
    In (bt, step) trace /\ In tname (selected c bt)
    /\ tensor_value bt tname step = Some t /\ writes c t = true.

(** The classes that store the fetched array itself. *)
Definition stores_arrays (c : rule_class) : bool :=
  match c with
  | GradientsLayer | WeightRatio | Inputs | Outputs => true
  | _ => false
  end.

(** The classes that add up batch averages. *)
Definition stores_cells (c : rule_class) : bool :=
  match c with
  | ActivationOutputs | ActivationInputs => true
  | _ => false
  end.

Definition is_prefix {A} (l l' : list A) : Prop :=
  exists suffix, l' = l ++ suffix.

Definition is_warning (r : log_record) : bool :=
  match r with
  | WARNING _ => true
  | INFO _ => false
  end.

(** The warnings among the records of a log. *)
Definition warnings_of (log : list log_record) : list log_record :=
  filter is_warning log.

(** What one iteration of an array-storing class on [x] has settled in the
    dictionary [m]: the fetched tensor is in place under (x, step), or, when
    the body does not reach the assignment, the name is a key. *)
Definition settled (c : rule_class) (bt : Trial) (step : nat) (x : string)
    (m : store_of c) : Prop :=
  match tensor_value bt x step with
  | None => True
  | Some t =>
      if writes c t
      then entry (exposed c m) x step = Some (VArray t)
      else In x (name_keys (exposed c m))
  end.

(** Whether the iteration on [tname] fetches a tensor and reaches the
    assignment. *)
Definition reaches_assignment (c : rule_class) (bt : Trial) (step : nat)
    (tname : string) : bool :=
  match tensor_value bt tname step with
  | Some t => writes c t
  | None => false
  end.

(** The shape of the statements about the log of one guarded body: it
    completes normally, only appends to the log, and the warnings it appends
    are [ws]. *)
Definition logs_as {T} (body : M (Rule T) unit) (ws : list log_record)
  : Prop :=
  forall self, exists s' msgs,
    body self = (s', Ok tt)
    /\ logger s' = logger self ++ msgs
    /\ warnings_of msgs = ws.

(** The warning an iteration leaves when it does not reach the assignment. *)
Definition warning_for (c : rule_class) (bt : Trial) (step : nat)
    (tname : string) : list log_record :=
  if reaches_assignment c bt step tname then []
  else [WARNING (CanNotFetch tname)].

(** The INFO record an activation rule logs for a tensor with entries that
    are not positive. *)
Definition nonpositive_info (c : rule_class) (step : nat) (tname : string)
  : log_record :=
  match c with
  | ActivationInputs => INFO (InputsSmallerThanZero tname)
  | _ => INFO (OutputsSmallerThanZero step tname)
  end.

(** [len(np.where(tensor <= 0)[0]) > 0] for the tensor fetched for [tname],
    [false] when the fetch fails. *)
Definition has_nonpositive (bt : Trial) (step : nat) (tname : string) : bool :=
  match tensor_value bt tname step with
  | Some t => 0 <? length (np_where_le0 t)
  | None => false
  end.

(** The shape of the statements about the INFO record of one guarded body of
    an activation rule: the body completes normally, appends to the log, the
    record [info] is among what it appends exactly when [b] holds, and it
    appends nothing but [info] and the warning for [tname]. *)
Definition infos_as {T} (body : M (Rule T) unit) (info : log_record)
    (b : bool) (tname : string) : Prop :=
  forall self, exists s' msgs,
    body self = (s', Ok tt)
    /\ logger s' = logger self ++ msgs
    /\ (In info msgs <-> b = true)
    /\ (forall r, In r msgs -> r = info \/ r = WARNING (CanNotFetch tname)).

(* ================================================================= *)
(** * Properties *)

(** ** Ordered dictionaries *)

Section ODictFacts.
Variables (K V : Type).
Variable eqb : K -> K -> bool.
Hypothesis eqb_eq : forall a b, eqb a b = true <-> a = b.

Lemma eqb_refl' : forall a, eqb a a = true.
Proof. intro a. apply eqb_eq. reflexivity. Qed.

Lemma eqb_neq' : forall a b, a <> b -> eqb a b = false.
Proof.
  intros a b H. destruct (eqb a b) eqn:E; [|reflexivity].
  apply eqb_eq in E. contradiction.
Qed.

Lemma od_get_set_same (k : K) (v : V) (d : odict K V) :
  od_get eqb k (od_set eqb k v d) = Some v.
Proof.
  induction d as [|[k' v'] d IH]; simpl.
  - now rewrite eqb_refl'.
  - destruct (eqb k k') eqn:E; simpl; rewrite E; auto.
Qed.

Lemma od_get_set_other (k k' : K) (v : V) (d : odict K V) :
  k <> k' -> od_get eqb k' (od_set eqb k v d) = od_get eqb k' d.
Proof.
  intros Hne. induction d as [|[k0 v0] d IH]; simpl.
  - rewrite eqb_neq'; auto.
  - destruct (eqb k k0) eqn:E; simpl.
    + apply eqb_eq in E. subst k0. rewrite eqb_neq'; auto.
    + destruct (eqb k' k0); auto.
Qed.

Lemma od_set_set (k : K) (v v' : V) (d : odict K V) :
  od_set eqb k v (od_set eqb k v' d) = od_set eqb k v d.
Proof.
  induction d as [|[k0 v0] d IH]; simpl.
  - now rewrite eqb_refl'.
  - destruct (eqb k k0) eqn:E; simpl; rewrite E; [reflexivity|].
    now rewrite IH.
Qed.

Lemma od_set_unchanged (k : K) (v : V) (d : odict K V) :
  od_get eqb k d = Some v -> od_set eqb k v d = d.
Proof.
  induction d as [|[k0 v0] d IH]; simpl; [discriminate|].
  destruct (eqb k k0) eqn:E.
  - intros [= ->]. reflexivity.
  - intros H. now rewrite IH.
Qed.

Lemma od_get_In_keys (k : K) (d : odict K V) :
  od_get eqb k d <> None <-> In k (od_keys d).
Proof.
  induction d as [|[k0 v0] d IH]; simpl.
  - split; [congruence | tauto].
  - destruct (eqb k k0) eqn:E.
    + apply eqb_eq in E. subst. split; [auto | congruence].
    + rewrite IH. split; [auto | intros [H|H]; auto].
      subst. rewrite eqb_refl' in E. discriminate.
Qed.

Lemma od_keys_set (k : K) (v : V) (d : odict K V) :
  od_keys (od_set eqb k v d) =
  if od_mem eqb k d then od_keys d else od_keys d ++ [k].
Proof.
  unfold od_mem. induction d as [|[k0 v0] d IH]; simpl; [reflexivity|].
  destruct (eqb k k0) eqn:E; simpl; [reflexivity|].
  rewrite IH. destruct (od_get eqb k d); reflexivity.
Qed.

End ODictFacts.

Lemma sget_set_same {V} (k : string) (v : V) d :
  od_get String.eqb k (od_set String.eqb k v d) = Some v.
Proof. apply od_get_set_same, String.eqb_eq. Qed.

Lemma nget_set_same {V} (k : nat) (v : V) d :
  od_get Nat.eqb k (od_set Nat.eqb k v d) = Some v.
Proof. apply od_get_set_same, Nat.eqb_eq. Qed.

Lemma sget_set_other {V} (k k' : string) (v : V) d :
  k <> k' -> od_get String.eqb k' (od_set String.eqb k v d) = od_get String.eqb k' d.
Proof. apply od_get_set_other, String.eqb_eq. Qed.

Lemma nget_set_other {V} (k k' : nat) (v : V) d :
  k <> k' -> od_get Nat.eqb k' (od_set Nat.eqb k v d) = od_get Nat.eqb k' d.
Proof. apply od_get_set_other, Nat.eqb_eq. Qed.

Lemma sset_set {V} (k : string) (v v' : V) d :
  od_set String.eqb k v (od_set String.eqb k v' d) = od_set String.eqb k v d.
Proof. apply od_set_set, String.eqb_eq. Qed.

Lemma nset_set {V} (k : nat) (v v' : V) d :
  od_set Nat.eqb k v (od_set Nat.eqb k v' d) = od_set Nat.eqb k v d.
Proof. apply od_set_set, Nat.eqb_eq. Qed.

Lemma nset_unchanged {V} (k : nat) (v : V) d :
  od_get Nat.eqb k d = Some v -> od_set Nat.eqb k v d = d.
Proof. apply od_set_unchanged. Qed.

(** ** Agreement of the monadic code with the summary functions *)

Ltac mrun :=
  repeat (progress
    (unfold bind, has_name, gets, when, new_name, set_tensors, modify,
       tensors_at, GradientsAcrossLayers.tensors_at_step, getitem, assign,
       ret, raise, logger_info, logger_warning, from_option, iadd; cbn)).

Ltac od_simpl :=
  repeat first
    [ rewrite sget_set_same | rewrite nget_set_same
    | rewrite sset_set | rewrite nset_set
    | rewrite Nat.eqb_refl | rewrite String.eqb_refl
    | match goal with H : od_get _ _ _ = _ |- _ => rewrite H end ].

Ltac crunch := repeat (progress (mrun; od_simpl; cbn)).

Ltac close_run :=
  first [ exists []; rewrite app_nil_r; split;
          [reflexivity | try discriminate; auto]
        | eexists; rewrite <- ?app_assoc; split;
          [reflexivity | try discriminate; auto] ].

Lemma ActivationOutputs_body_run bt step tname :
  runs_as (try_except (ActivationOutputs.try_body bt step tname)
                      (logger_warning (CanNotFetch tname)))
          (acc_next (tensor_value bt tname step) tname step)
          (tensor_value bt tname step) tname.
Proof.
  intros [m lg].
  unfold try_except, ActivationOutputs.try_body, fetch, acc_next, cell_at,
    put, inner_of.
  destruct (tensor_value bt tname step) as [t|]; cbn; [|close_run].
  unfold od_mem.
  destruct (od_get String.eqb tname m) as [d|] eqn:Hd;
    [destruct (od_get Nat.eqb step d) as [[z|a]|] eqn:Hc|];
    destruct (Datatypes.length (np_where_le0 t)) eqn:Hneg; crunch;
    try destruct (broadcast_to _ _ _); crunch; close_run.
Qed.

Lemma ActivationInputs_body_run bt step tname :
  runs_as (try_except (ActivationInputs.try_body bt step tname)
                      (logger_warning (CanNotFetch tname)))
          (acc_next (tensor_value bt tname step) tname step)
          (tensor_value bt tname step) tname.
Proof.
  intros [m lg].
  unfold try_except, ActivationInputs.try_body, fetch, acc_next, cell_at,
    put, inner_of.
  destruct (tensor_value bt tname step) as [t|]; cbn; [|close_run].
  unfold od_mem.
  destruct (od_get String.eqb tname m) as [d|] eqn:Hd;
    [destruct (od_get Nat.eqb step d) as [[z|a]|] eqn:Hc|];
    destruct (Datatypes.length (np_where_le0 t)) eqn:Hneg; crunch;
    try destruct (broadcast_to _ _ _); crunch; close_run.
Qed.

Lemma np_max_min_some t x : np_min t = Some x -> exists y, np_max t = Some y.
Proof.
  unfold np_min, np_max. destruct (flatten t); [discriminate|]. eauto.
Qed.

Lemma GradientsLayer_body_run bt step tname :
  runs_as (try_except (GradientsLayer.try_body bt step tname)
                      (logger_warning (CanNotFetch tname)))
          (range_next (tensor_value bt tname step) tname step)
          (tensor_value bt tname step) tname.
Proof.
  intros [m lg].
  unfold try_except, GradientsLayer.try_body, fetch, range_next, put, touch,
    inner_of.
  destruct (tensor_value bt tname step) as [t|]; cbn; [|close_run].
  unfold od_mem.
  destruct (np_min t) as [lo|] eqn:Hlo.
  - destruct (np_max_min_some _ Hlo) as [hi Hhi].
    destruct (od_get String.eqb tname m) as [d|] eqn:Hd;
      crunch; rewrite ?Hlo, ?Hhi; crunch; close_run.
  - destruct (od_get String.eqb tname m) as [d|] eqn:Hd;
      crunch; rewrite ?Hlo; crunch; close_run.
Qed.

Lemma raw_body_run (msg : string -> ndarray -> message) bt step tname :
  runs_as (try_except
             (tensor <- fetch bt tname step ;;
              present <- has_name tname ;;
              when (negb present) (new_name tname) ;;
              logger_info (msg tname tensor) ;;
              assign tname step tensor)%monad
             (logger_warning (CanNotFetch tname)))
          (raw_next (tensor_value bt tname step) tname step)
          (tensor_value bt tname step) tname.
Proof.
  intros [m lg].
  unfold try_except, fetch, raw_next, put, inner_of.
  destruct (tensor_value bt tname step) as [t|]; cbn; [|close_run].
  unfold od_mem.
  destruct (od_get String.eqb tname m) as [d|] eqn:Hd; crunch; close_run.
Qed.

Lemma WeightRatio_body_run bt step tname :
  runs_as (try_except (WeightRatio.try_body bt step tname)
                      (logger_warning (CanNotFetch tname)))
          (raw_next (tensor_value bt tname step) tname step)
          (tensor_value bt tname step) tname.
Proof.
  exact (raw_body_run (fun n t => WeightsVariance n (np_var (flatten t)))
                      bt step tname).
Qed.

Lemma Inputs_body_run bt step tname :
  runs_as (try_except (Inputs.try_body bt step tname)
                      (logger_warning (CanNotFetch tname)))
          (raw_next (tensor_value bt tname step) tname step)
          (tensor_value bt tname step) tname.
Proof.
  exact (raw_body_run (fun n t => InputsVariance n (np_var (flatten t)))
                      bt step tname).
Qed.

Lemma Outputs_body_run bt step tname :
  runs_as (try_except (Outputs.try_body bt step tname)
                      (logger_warning (CanNotFetch tname)))
          (raw_next (tensor_value bt tname step) tname step)
          (tensor_value bt tname step) tname.
Proof.
  exact (raw_body_run (fun n t => InputsVariance n (np_var (flatten t)))
                      bt step tname).
Qed.

Local Opaque flt fgt.

Lemma GradientsAcrossLayers_body_run bt step tname :
  runs_as (try_except (GradientsAcrossLayers.try_body bt step tname)
                      (logger_warning (CanNotFetch tname)))
          (minmax_next (tensor_value bt tname step) step)
          (tensor_value bt tname step) tname.
Proof.
  intros [m lg].
  unfold try_except, GradientsAcrossLayers.try_body, fetch, minmax_next,
    minmax_at, minmax_update.
  destruct (tensor_value bt tname step) as [t|]; cbn; [|close_run].
  unfold od_mem.
  destruct (od_get Nat.eqb step m) as [[lo hi]|] eqn:Hp; crunch.
  - destruct (flt (np_var (flatten t)) lo); crunch; [close_run|].
    destruct (fgt (np_var (flatten t)) hi); crunch; [close_run|].
    rewrite (nset_unchanged _ _ Hp). close_run.
  - destruct (flt (np_var (flatten t)) PInf); crunch; [close_run|].
    destruct (fgt (np_var (flatten t)) (Fin 0)); crunch; close_run.
Qed.

Local Transparent flt fgt.

(** ** The loop over the tensor names *)

Lemma fold_left_filter {A B} (p : B -> bool) (h : A -> B -> A) l a :
  fold_left (fun a x => if p x then h a x else a) l a =
  fold_left h (filter p l) a.
Proof.
  revert a. induction l as [|x l IH]; intro a; simpl; [reflexivity|].
  destruct (p x); simpl; apply IH.
Qed.

Lemma for_each_run {T} (l : list string) (f : string -> M (Rule T) unit)
    (nx : string -> T -> T) (w : string -> Prop) :
  (forall x self, exists msgs,
      f x self = (mk_Rule (nx x (tensors self)) (logger self ++ msgs), Ok tt)
      /\ (w x -> In (WARNING (CanNotFetch x)) msgs)) ->
  forall self, exists msgs,
    for_each l f self =
      (mk_Rule (fold_left (fun m x => nx x m) l (tensors self))
               (logger self ++ msgs), Ok tt)
    /\ (forall x, In x l -> w x -> In (WARNING (CanNotFetch x)) msgs).
Proof.
  intros Hf. induction l as [|x l IH]; intro self; simpl.
  - exists []. rewrite app_nil_r. destruct self. split; [reflexivity|tauto].
  - destruct (Hf x self) as (m1 & E1 & W1).
    unfold bind. rewrite E1.
    destruct (IH (mk_Rule (nx x (tensors self)) (logger self ++ m1)))
      as (m2 & E2 & W2).
    rewrite E2. cbn. exists (m1 ++ m2). rewrite app_assoc.
    split; [reflexivity|].
    intros y [->|Hy] Hw; apply in_or_app; auto.
Qed.

Lemma guarded_run {T} (b : bool) (body : M (Rule T) unit) (nx : T -> T)
    o tname :
  runs_as body nx o tname ->
  forall self, exists msgs,
    when b body self =
      (mk_Rule ((if b then nx else fun m => m) (tensors self))
               (logger self ++ msgs), Ok tt)
    /\ (b = true /\ o = None -> In (WARNING (CanNotFetch tname)) msgs).
Proof.
  intros Hb self. destruct b; cbn.
  - destruct (Hb self) as (msgs & E & W). exists msgs. split; [exact E|].
    intros [_ Ho]. rewrite (W Ho). now left.
  - exists []. rewrite app_nil_r. destruct self. split; [reflexivity|].
    intros [? _]. discriminate.
Qed.

(** The loop of every [invoke_at_step]: names filtered by [p], each run
    through a guarded body, then [return False]. *)
Lemma loop_run {T} (names : list string) (p : string -> bool)
    (body : string -> M (Rule T) unit) (nx : string -> T -> T)
    (o : string -> option ndarray) :
  (forall x, runs_as (body x) (nx x) (o x) x) ->
  forall self, exists msgs,
    (for_each names (fun x => when (p x) (body x)) ;; ret false)%monad self =
      (mk_Rule (fold_left (fun m x => nx x m) (filter p names) (tensors self))
               (logger self ++ msgs), Ok false)
    /\ (forall x, In x names -> p x = true /\ o x = None ->
          In (WARNING (CanNotFetch x)) msgs).
Proof.
  intros Hb self.
  destruct (@for_each_run T names (fun x => when (p x) (body x))
              (fun x m => if p x then nx x m else m)
              (fun x => p x = true /\ o x = None)) with (self := self)
    as (msgs & E & W).
  - intros x s. destruct (guarded_run (p x) (Hb x) s) as (ms & E & W).
    exists ms. split; [|exact W]. rewrite E. destruct (p x); reflexivity.
  - exists msgs. unfold bind. rewrite E. cbn.
    rewrite <- fold_left_filter. split; [reflexivity | exact W].
Qed.

(** [invoke_at_step] completes normally with [False], leaves
    [step_tensors] in [self.tensors], only appends to the log, and logs a
    warning for every selected name whose fetch fails. *)
Lemma invoke_at_step_run (c : rule_class) bt step (self : Rule (store_of c)) :
  exists msgs,
    invoke_at_step c bt step self =
      (mk_Rule (step_tensors c bt step (tensors self)) (logger self ++ msgs),
       Ok false)
    /\ (forall tname, In tname (tensor_names bt (regex_of c)) ->
          fetch_fails c bt step tname ->
          In (WARNING (CanNotFetch tname)) msgs).
Proof.
  destruct c.
  - exact (@loop_run _ (tensor_names bt _) (not_excluded ActivationOutputs)
             _ _ _ (ActivationOutputs_body_run bt step) self).
  - exact (@loop_run _ (tensor_names bt _) (not_excluded ActivationInputs)
             _ _ _ (ActivationInputs_body_run bt step) self).
  - exact (@loop_run _ (tensor_names bt _) (not_excluded GradientsLayer)
             _ _ _ (GradientsLayer_body_run bt step) self).
  - exact (@loop_run _ (tensor_names bt _)
             (not_excluded GradientsAcrossLayers)
             _ _ _ (GradientsAcrossLayers_body_run bt step) self).
  - exact (@loop_run _ (tensor_names bt _) (not_excluded WeightRatio)
             _ _ _ (WeightRatio_body_run bt step) self).
  - exact (@loop_run _ (tensor_names bt _) (not_excluded Inputs)
             _ _ _ (Inputs_body_run bt step) self).
  - exact (@loop_run _ (tensor_names bt _) (not_excluded Outputs)
             _ _ _ (Outputs_body_run bt step) self).
Qed.

(** ** Whole traces *)

Lemma invoke_at_step_tensors (c : rule_class) bt step self :
  tensors (fst (invoke_at_step c bt step self)) =
  step_tensors c bt step (tensors self).
Proof.
  destruct (invoke_at_step_run c bt step self) as (msgs & E & _).
  now rewrite E.
Qed.

Lemma invoke_at_step_result (c : rule_class) bt step self :
  snd (invoke_at_step c bt step self) = Ok false.
Proof.
  destruct (invoke_at_step_run c bt step self) as (msgs & E & _).
  now rewrite E.
Qed.

Lemma process_tensors (c : rule_class) trace self :
  tensors (process c trace self) = trace_tensors c trace (tensors self).
Proof.
  unfold process, trace_tensors. revert self.
  induction trace as [|[bt step] trace IH]; intro self; simpl; [reflexivity|].
  rewrite IH, invoke_at_step_tensors. reflexivity.
Qed.

Lemma process_app (c : rule_class) pre post self :
  process c (pre ++ post) self = process c post (process c pre self).
Proof. unfold process. apply fold_left_app. Qed.

Lemma trace_tensors_app (c : rule_class) pre post m :
  trace_tensors c (pre ++ post) m =
  trace_tensors c post (trace_tensors c pre m).
Proof. unfold trace_tensors. apply fold_left_app. Qed.

(** The driver reaches the end of every trace and raises [NoMoreData] there;
    the rule object it leaves is the one [process] computes. *)
Lemma invoke_rule_run (c : rule_class) trace self :
  invoke_rule (invoke_at_step c) trace self =
  (process c trace self, Raise NoMoreData).
Proof.
  unfold process. revert self.
  induction trace as [|[bt step] trace IH]; intro self; simpl; [reflexivity|].
  unfold bind.
  destruct (invoke_at_step_run c bt step self) as (msgs & E & _).
  rewrite E. cbn. apply IH.
Qed.

Lemma run_cell_run (c : rule_class) trace :
  run_cell c trace =
  (mk_Session (process c trace (init c)) [expected_message], Ok tt).
Proof.
  unfold run_cell, try_except_only, on_rule. cbn.
  rewrite invoke_rule_run. reflexivity.
Qed.

(** ** Dictionaries keyed by name, then step *)

Section NameStoreFacts.
Variable V : Type.
Implicit Types (m : name_store V) (n : string) (s : nat).

Lemma lookup2_put_same n s v m : lookup2 n s (put n s v m) = Some v.
Proof.
  unfold lookup2, put. rewrite sget_set_same. apply nget_set_same.
Qed.

Lemma od_get_put_other n n' s v m :
  n <> n' -> od_get String.eqb n' (put n s v m) = od_get String.eqb n' m.
Proof. intro H. unfold put. now apply sget_set_other. Qed.

Lemma od_get_put_same n s v m :
  od_get String.eqb n (put n s v m) =
  Some (od_set Nat.eqb s v (inner_of n m)).
Proof. unfold put. apply sget_set_same. Qed.

Lemma lookup2_put_other n s v m n' s' :
  (n, s) <> (n', s') -> lookup2 n' s' (put n s v m) = lookup2 n' s' m.
Proof.
  intro H. unfold lookup2.
  destruct (string_dec n n') as [->|Hn].
  - rewrite od_get_put_same.
    assert (s <> s') by congruence.
    rewrite nget_set_other by assumption.
    unfold inner_of. destruct (od_get String.eqb n' m); reflexivity.
  - now rewrite od_get_put_other.
Qed.

Lemma od_get_touch_other n n' m :
  n <> n' -> od_get String.eqb n' (touch n m) = od_get String.eqb n' m.
Proof.
  intro H. unfold touch. destruct (od_mem String.eqb n m); [reflexivity|].
  now apply sget_set_other.
Qed.

Lemma inner_of_touch n n' m : inner_of n' (touch n m) = inner_of n' m.
Proof.
  unfold inner_of. destruct (string_dec n n') as [->|Hn].
  - unfold touch, od_mem.
    destruct (od_get String.eqb n' m) eqn:E; [now rewrite E|].
    now rewrite sget_set_same.
  - now rewrite od_get_touch_other.
Qed.

Lemma lookup2_inner n s m : lookup2 n s m = od_get Nat.eqb s (inner_of n m).
Proof.
  unfold lookup2, inner_of. destruct (od_get String.eqb n m); reflexivity.
Qed.

Lemma lookup2_touch n m n' s' : lookup2 n' s' (touch n m) = lookup2 n' s' m.
Proof. now rewrite !lookup2_inner, inner_of_touch. Qed.

Lemma inner_of_put_same n s v m :
  inner_of n (put n s v m) = od_set Nat.eqb s v (inner_of n m).
Proof. unfold inner_of at 1. now rewrite od_get_put_same. Qed.

Lemma inner_of_put_other n n' s v m :
  n <> n' -> inner_of n' (put n s v m) = inner_of n' m.
Proof. intro H. unfold inner_of. now rewrite od_get_put_other. Qed.

End NameStoreFacts.

(** ** One iteration and the recorded entries *)

Lemma entry_cells m n s :
  entry (CellsByName m) n s = option_map VCell (lookup2 n s m).
Proof.
  unfold entry, lookup2. destruct (od_get String.eqb n m); reflexivity.
Qed.

Lemma entry_arrays m n s :
  entry (ArraysByName m) n s = option_map VArray (lookup2 n s m).
Proof.
  unfold entry, lookup2. destruct (od_get String.eqb n m); reflexivity.
Qed.

Ltac to_lookup2 :=
  unfold recorded, exposed, next;
  rewrite ?entry_cells, ?entry_arrays;
  unfold step_entry.

Lemma lookup2_acc_next_other o n step m n0 s :
  (n, step) <> (n0, s) ->
  lookup2 n0 s (acc_next o n step m) = lookup2 n0 s m.
Proof.
  intro H. unfold acc_next. destruct o as [t|]; [|reflexivity].
  destruct (iadd_pure _ _); [|reflexivity].
  now apply lookup2_put_other.
Qed.

Lemma lookup2_raw_next_other o n step m n0 s :
  (n, step) <> (n0, s) ->
  lookup2 n0 s (raw_next o n step m) = lookup2 n0 s m.
Proof.
  intro H. unfold raw_next. destruct o as [t|]; [|reflexivity].
  now apply lookup2_put_other.
Qed.

Lemma lookup2_range_next_other o n step m n0 s :
  (n, step) <> (n0, s) ->
  lookup2 n0 s (range_next o n step m) = lookup2 n0 s m.
Proof.
  intro H. unfold range_next. destruct o as [t|]; [|reflexivity].
  destruct (np_min t); [now apply lookup2_put_other | apply lookup2_touch].
Qed.

Lemma od_get_minmax_next_other o step m s :
  step <> s ->
  od_get Nat.eqb s (minmax_next o step m) = od_get Nat.eqb s m.
Proof.
  intro H. unfold minmax_next. destruct o as [t|]; [|reflexivity].
  now apply nget_set_other.
Qed.

(** An iteration at one step leaves the records of every other step as they
    are. *)
Lemma next_frame_step (c : rule_class) bt step n (m : store_of c) n0 s :
  step <> s ->
  recorded (exposed c (next c bt step n m)) n0 s =
  recorded (exposed c m) n0 s.
Proof.
  intro H. assert ((n, step) <> (n0, s)) by congruence.
  destruct c; to_lookup2;
    rewrite ?lookup2_acc_next_other, ?lookup2_raw_next_other,
      ?lookup2_range_next_other, ?od_get_minmax_next_other by assumption;
    reflexivity.
Qed.

(** An iteration on one name leaves the entries of every other name as they
    are. *)
Lemma next_frame_name (c : rule_class) bt step n (m : store_of c) n0 s :
  n <> n0 ->
  entry (exposed c (next c bt step n m)) n0 s = entry (exposed c m) n0 s.
Proof.
  intro H. assert ((n, step) <> (n0, s)) by congruence.
  destruct c; unfold exposed, next; rewrite ?entry_cells, ?entry_arrays;
    rewrite ?lookup2_acc_next_other, ?lookup2_raw_next_other,
      ?lookup2_range_next_other by assumption;
    reflexivity.
Qed.

Lemma option_map_some_iff {A B} (f : A -> B) (o : option A) :
  option_map f o <> None <-> o <> None.
Proof. destruct o; simpl; split; congruence. Qed.

(** An iteration never removes a record. *)
Lemma next_keeps (c : rule_class) bt step n (m : store_of c) n0 s :
  recorded (exposed c m) n0 s <> None ->
  recorded (exposed c (next c bt step n m)) n0 s <> None.
Proof.
  destruct (Nat.eq_dec step s) as [->|Hs];
    [|now rewrite next_frame_step].
  destruct c; to_lookup2; rewrite !option_map_some_iff.
  1,2: destruct (string_dec n n0) as [->|Hn];
       [|rewrite lookup2_acc_next_other by congruence; auto];
       unfold acc_next; destruct (tensor_value _ _ _); auto;
       destruct (iadd_pure _ _); auto; rewrite lookup2_put_same; congruence.
  1: destruct (string_dec n n0) as [->|Hn];
       [|rewrite lookup2_range_next_other by congruence; auto];
       unfold range_next; destruct (tensor_value _ _ _); auto;
       destruct (np_min _); rewrite ?lookup2_touch; auto;
       rewrite lookup2_put_same; congruence.
  1: unfold minmax_next; destruct (tensor_value _ _ _); auto;
       rewrite nget_set_same; congruence.
  1-3: destruct (string_dec n n0) as [->|Hn];
       [|rewrite lookup2_raw_next_other by congruence; auto];
       unfold raw_next; destruct (tensor_value _ _ _); auto;
       rewrite lookup2_put_same; congruence.
Qed.

(** An iteration whose fetch succeeds leaves a record for its name and
    step. *)
Lemma next_creates (c : rule_class) bt step n (m : store_of c) t :
  tensor_value bt n step = Some t ->
  writes c t = true ->
  recorded (exposed c (next c bt step n m)) n step <> None.
Proof.
  intros Ht Hw.
  destruct c; to_lookup2; rewrite ?option_map_some_iff; rewrite Ht.
  1,2: unfold acc_next; destruct (iadd_pure _ _) eqn:E;
       [rewrite lookup2_put_same; congruence|];
       unfold iadd_pure, cell_at in E; rewrite lookup2_inner;
       destruct (od_get Nat.eqb step (inner_of n m)); congruence.
  1: unfold range_next; cbn in Hw; destruct (np_min t); [|discriminate];
       rewrite lookup2_put_same; congruence.
  1: unfold minmax_next; rewrite nget_set_same; congruence.
  1-3: unfold raw_next; rewrite lookup2_put_same; congruence.
Qed.

(** ** One step and whole traces *)

Lemma fold_left_preserves {A B} (P : A -> Prop) (f : A -> B -> A) l :
  (forall a x, In x l -> P a -> P (f a x)) ->
  forall a, P a -> P (fold_left f l a).
Proof.
  induction l as [|x l IH]; intros Hf a Ha; simpl; [exact Ha|].
  apply IH.
  - intros a' y Hy. apply Hf. now right.
  - apply Hf; [now left | exact Ha].
Qed.

Lemma step_frame_step (c : rule_class) bt step (m : store_of c) n0 s :
  step <> s ->
  recorded (exposed c (step_tensors c bt step m)) n0 s =
  recorded (exposed c m) n0 s.
Proof.
  intro H. unfold step_tensors.
  apply (fold_left_preserves
           (fun m' => recorded (exposed c m') n0 s = recorded (exposed c m) n0 s));
    [|reflexivity].
  intros a x _ Ha. now rewrite next_frame_step.
Qed.

Lemma step_keeps (c : rule_class) bt step (m : store_of c) n0 s :
  recorded (exposed c m) n0 s <> None ->
  recorded (exposed c (step_tensors c bt step m)) n0 s <> None.
Proof.
  unfold step_tensors.
  apply (fold_left_preserves
           (fun m' => recorded (exposed c m') n0 s <> None)).
  intros a x _. apply next_keeps.
Qed.

Lemma trace_keeps (c : rule_class) trace (m : store_of c) n0 s :
  recorded (exposed c m) n0 s <> None ->
  recorded (exposed c (trace_tensors c trace m)) n0 s <> None.
Proof.
  unfold trace_tensors.
  apply (fold_left_preserves
           (fun m' => recorded (exposed c m') n0 s <> None)).
  intros a x _. apply step_keeps.
Qed.

Lemma trace_frame_step (c : rule_class) trace (m : store_of c) n0 s :
  (forall n, In n trace -> snd n <> s) ->
  recorded (exposed c (trace_tensors c trace m)) n0 s =
  recorded (exposed c m) n0 s.
Proof.
  intro H. unfold trace_tensors.
  apply (fold_left_preserves
           (fun m' => recorded (exposed c m') n0 s = recorded (exposed c m) n0 s));
    [|reflexivity].
  intros a x Hx Ha. rewrite step_frame_step; auto.
Qed.

Lemma fold_next_creates (c : rule_class) bt step l n t :
  In n l ->
  tensor_value bt n step = Some t ->
  writes c t = true ->
  forall m : store_of c,
    recorded (exposed c (fold_left (fun m x => next c bt step x m) l m))
             n step <> None.
Proof.
  intros Hin Ht Hw. induction l as [|x l IH]; intro m; [contradiction|].
  simpl. destruct (in_dec string_dec n l) as [Hl|Hl]; [now apply IH|].
  destruct Hin as [->|Hin]; [|contradiction].
  apply (fold_left_preserves
           (fun m' => recorded (exposed c m') n step <> None)).
  - intros a y _. apply next_keeps.
  - now apply next_creates with (t := t).
Qed.

Lemma in_selected (c : rule_class) bt n :
  In n (selected c bt) <->
  In n (tensor_names bt (regex_of c)) /\ not_excluded c n = true.
Proof. unfold selected. apply filter_In. Qed.

Lemma step_creates (c : rule_class) bt step n t (m : store_of c) :
  In n (selected c bt) ->
  tensor_value bt n step = Some t ->
  writes c t = true ->
  recorded (exposed c (step_tensors c bt step m)) n step <> None.
Proof. intros. now apply fold_next_creates with (t := t). Qed.

Lemma trace_creates (c : rule_class) trace bt step n t (m : store_of c) :
  In (bt, step) trace ->
  In n (selected c bt) ->
  tensor_value bt n step = Some t ->
  writes c t = true ->
  recorded (exposed c (trace_tensors c trace m)) n step <> None.
Proof.
  intros Hin Hn Ht Hw. apply in_split in Hin as (pre & post & ->).
  rewrite trace_tensors_app.
  change (trace_tensors c ((bt, step) :: post) (trace_tensors c pre m))
    with (trace_tensors c post
            (step_tensors c bt step (trace_tensors c pre m))).
  apply trace_keeps. now apply step_creates with (t := t).
Qed.

Lemma writes_size (c : rule_class) t :
  (c = GradientsLayer -> size t <> 0) -> writes c t = true.
Proof.
  intro H. destruct c; try reflexivity.
  specialize (H eq_refl). unfold writes, np_min, size in *.
  destruct (flatten t); [contradiction | reflexivity].
Qed.

Lemma next_none (c : rule_class) bt step n (m : store_of c) :
  tensor_value bt n step = None -> next c bt step n m = m.
Proof. intro H. destruct c; cbn; rewrite H; reflexivity. Qed.

Lemma next_without (c : rule_class) bt step n x (m : store_of c) :
  next c (without n bt) step x m = next c bt step x m.
Proof. destruct c; reflexivity. Qed.

Lemma filter_swap {A} (p q : A -> bool) l :
  filter p (filter q l) = filter q (filter p l).
Proof.
  induction l as [|x l IH]; simpl; [reflexivity|].
  destruct (p x) eqn:Hp, (q x) eqn:Hq; simpl; rewrite ?Hp, ?Hq, IH; reflexivity.
Qed.

Lemma fold_left_skip {A B} (q : B -> bool) (f : A -> B -> A) l :
  (forall x a, q x = false -> f a x = a) ->
  forall a, fold_left f (filter q l) a = fold_left f l a.
Proof.
  intro H. induction l as [|x l IH]; intro a; simpl; [reflexivity|].
  destruct (q x) eqn:Hq; simpl; [apply IH|].
  rewrite (H x a Hq). apply IH.
Qed.

Lemma fold_left_pointwise {A B} (f g : A -> B -> A) l :
  (forall a x, f a x = g a x) ->
  forall a, fold_left f l a = fold_left g l a.
Proof.
  intro H. induction l as [|x l IH]; intro a; simpl; [reflexivity|].
  rewrite H. apply IH.
Qed.

(** A name whose fetch fails has no effect on [self.tensors]. *)
Lemma step_tensors_without (c : rule_class) bt step n (m : store_of c) :
  tensor_value bt n step = None ->
  step_tensors c (without n bt) step m = step_tensors c bt step m.
Proof.
  intro H. unfold step_tensors, selected. cbn [tensor_names without].
  rewrite filter_swap.
  rewrite fold_left_skip
    with (f := fun m x => next c (without n bt) step x m).
  - apply fold_left_pointwise. intros. apply next_without.
  - intros x a Hx. apply negb_false_iff, String.eqb_eq in Hx. subst x.
    rewrite next_without. now apply next_none.
Qed.

(** ** Numbers and arrays *)


Lemma Qle_bool_proper x y u v :
  (x == y)%Q -> (u == v)%Q -> Qle_bool x u = Qle_bool y v.
Proof.
  intros H1 H2.
  destruct (Qle_bool x u) eqn:E1, (Qle_bool y v) eqn:E2; auto.
  - apply Qle_bool_iff in E1. rewrite H1, H2 in E1.
    apply Qle_bool_iff in E1. congruence.
  - apply Qle_bool_iff in E2. rewrite <- H1, <- H2 in E2.
    apply Qle_bool_iff in E2. congruence.
Qed.

Lemma Qltb_proper x y u v :
  (x == y)%Q -> (u == v)%Q -> Qltb x u = Qltb y v.
Proof.
  intros H1 H2. unfold Qltb. f_equal. now apply Qle_bool_proper.
Qed.

(** *** Rounding depends on the value only *)







(** *** [np.sum] along the first axis *)











(** ** The activation rules within one step *)


Lemma option_map_none {A B} (f : A -> B) (o : option A) :
  option_map f o = None -> o = None.
Proof. destruct o; simpl; congruence. Qed.









(** ** The cross-layer rule within one step *)

(** The pair of the step after the loop is the pair before it run through
    the [if]/[elif] once per fetched variance. *)
Lemma minmax_fold bt step l :
  forall m,
    od_get Nat.eqb step
      (fold_left (fun m x => minmax_next (tensor_value bt x step) step m) l m)
    = match flat_map (variance_of bt step) l with
      | [] => od_get Nat.eqb step m
      | vs => Some (fold_left minmax_update vs (minmax_at step m))
      end.
Proof.
  induction l as [|x l IH]; intro m; simpl; [reflexivity|].
  rewrite IH. unfold variance_of at 2. unfold minmax_next.
  destruct (tensor_value bt x step) as [t|]; simpl; [|reflexivity].
  rewrite nget_set_same.
  destruct (flat_map (variance_of bt step) l); [reflexivity|].
  unfold minmax_at at 1. rewrite nget_set_same. reflexivity.
Qed.

Lemma step_minmax bt step (m : store_of GradientsAcrossLayers) :
  od_get Nat.eqb step (step_tensors GradientsAcrossLayers bt step m)
  = match fetched_variances bt step with
    | [] => od_get Nat.eqb step m
    | vs => Some (fold_left minmax_update vs (minmax_at step m))
    end.
Proof. apply minmax_fold. Qed.

(* ================================================================= *)
(** * Keys and their order *)

Section KeyOrder.
Variables (K V : Type).
Variable eqb : K -> K -> bool.
Hypothesis eqb_eq : forall a b, eqb a b = true <-> a = b.

Lemma od_mem_existsb (k : K) (d : odict K V) :
  od_mem eqb k d = existsb (eqb k) (od_keys d).
Proof.
  unfold od_mem. induction d as [|[k0 v0] d IH]; simpl; [reflexivity|].
  destruct (eqb k k0); simpl; auto.
Qed.

Lemma od_keys_set_add_once (k : K) (v : V) (d : odict K V) :
  od_keys (od_set eqb k v d) = add_once eqb k (od_keys d).
Proof.
  rewrite od_keys_set. unfold add_once. now rewrite od_mem_existsb.
Qed.

Lemma existsb_eqb_In (k : K) (l : list K) :
  existsb (eqb k) l = true <-> In k l.
Proof.
  rewrite existsb_exists. split.
  - intros (x & Hx & E). apply eqb_eq in E. now subst.
  - intro H. exists k. split; [exact H|]. now apply eqb_eq.
Qed.

Lemma add_once_present (k : K) (l : list K) :
  In k l -> add_once eqb k l = l.
Proof.
  intro H. unfold add_once. apply existsb_eqb_In in H. now rewrite H.
Qed.

Lemma in_add_once (x k : K) (l : list K) :
  In x (add_once eqb k l) <-> In x l \/ x = k.
Proof.
  unfold add_once. destruct (existsb (eqb k) l) eqn:E.
  - apply existsb_eqb_In in E. split; [auto|]. intros [H| ->]; auto.
  - rewrite in_app_iff. simpl. split; intros [H|H]; auto.
    + destruct H; auto. contradiction.
Qed.

Lemma in_fold_add_once (x : K) (l acc : list K) :
  In x (fold_left (fun a k => add_once eqb k a) l acc) <-> In x acc \/ In x l.
Proof.
  revert acc. induction l as [|k l IH]; intro acc; simpl.
  - tauto.
  - rewrite IH, in_add_once. intuition (subst; auto).
Qed.

End KeyOrder.

Lemma skeys_add_once {V} (k : string) (v : V) d :
  od_keys (od_set String.eqb k v d) = add_once String.eqb k (od_keys d).
Proof. apply od_keys_set_add_once. Qed.

Lemma nkeys_add_once {V} (k : nat) (v : V) d :
  od_keys (od_set Nat.eqb k v d) = add_once Nat.eqb k (od_keys d).
Proof. apply od_keys_set_add_once. Qed.

Lemma od_keys_put {V} n s (v : V) m :
  od_keys (put n s v m) = add_once String.eqb n (od_keys m).
Proof. unfold put. apply skeys_add_once. Qed.

Lemma od_keys_touch {V} n (m : name_store V) :
  od_keys (touch n m) = add_once String.eqb n (od_keys m).
Proof.
  unfold touch, add_once. rewrite od_mem_existsb.
  destruct (existsb (String.eqb n) (od_keys m)) eqn:E; [reflexivity|].
  rewrite skeys_add_once. unfold add_once. now rewrite E.
Qed.

Lemma lookup2_some_name {V} n s (m : name_store V) :
  lookup2 n s m <> None -> In n (od_keys m).
Proof.
  unfold lookup2. intro H.
  apply (@od_get_In_keys _ _ String.eqb String.eqb_eq).
  destruct (od_get String.eqb n m); congruence.
Qed.

(** The activation rules fail to add only to a cell that already holds an
    array. *)
Lemma iadd_pure_none n step m b :
  iadd_pure (cell_at n step m) b = None -> lookup2 n step m <> None.
Proof.
  unfold iadd_pure, cell_at. rewrite lookup2_inner.
  destruct (od_get Nat.eqb step (inner_of n m)); [congruence|discriminate].
Qed.

Lemma od_keys_acc_next t n step m :
  od_keys (acc_next (Some t) n step m) = add_once String.eqb n (od_keys m).
Proof.
  unfold acc_next. destruct (iadd_pure _ _) eqn:E; [apply od_keys_put|].
  symmetry. apply (@add_once_present _ String.eqb String.eqb_eq).
  apply lookup2_some_name with (s := step). eapply iadd_pure_none, E.
Qed.

Lemma od_keys_range_next t n step m :
  od_keys (range_next (Some t) n step m) = add_once String.eqb n (od_keys m).
Proof.
  unfold range_next. destruct (np_min t);
    [apply od_keys_put | apply od_keys_touch].
Qed.

(** The names among the keys grow by the name of each iteration whose fetch
    succeeds. *)
Lemma name_keys_next (c : rule_class) bt step x (m : store_of c) :
  keyed_by_name c = true ->
  name_keys (exposed c (next c bt step x m)) =
  if is_some (tensor_value bt x step)
  then add_once String.eqb x (name_keys (exposed c m))
  else name_keys (exposed c m).
Proof.
  intro Hk.
  destruct c; try discriminate Hk; unfold exposed, next, name_keys;
    destruct (tensor_value bt x step) as [t|]; try reflexivity; cbn [is_some].
  - apply od_keys_acc_next.
  - apply od_keys_acc_next.
  - apply od_keys_range_next.
  - apply od_keys_put.
  - apply od_keys_put.
  - apply od_keys_put.
Qed.

Lemma step_keys_next bt step x (m : store_of GradientsAcrossLayers) :
  step_keys (exposed GradientsAcrossLayers
               (next GradientsAcrossLayers bt step x m)) =
  if is_some (tensor_value bt x step)
  then add_once Nat.eqb step (step_keys (exposed GradientsAcrossLayers m))
  else step_keys (exposed GradientsAcrossLayers m).
Proof.
  unfold exposed, next, step_keys, minmax_next.
  destruct (tensor_value bt x step) as [t|]; [|reflexivity].
  apply nkeys_add_once.
Qed.

Lemma steps_of_cells m n :
  steps_of (CellsByName m) n = od_keys (inner_of n m).
Proof.
  unfold steps_of, inner_of. destruct (od_get String.eqb n m); reflexivity.
Qed.

Lemma steps_of_arrays m n :
  steps_of (ArraysByName m) n = od_keys (inner_of n m).
Proof.
  unfold steps_of, inner_of. destruct (od_get String.eqb n m); reflexivity.
Qed.

Lemma inner_keys_put {V} x s (v : V) m n :
  od_keys (inner_of n (put x s v m)) =
  if String.eqb x n then add_once Nat.eqb s (od_keys (inner_of n m))
  else od_keys (inner_of n m).
Proof.
  destruct (String.eqb_spec x n) as [->|H].
  - rewrite inner_of_put_same. apply nkeys_add_once.
  - now rewrite inner_of_put_other.
Qed.

Lemma inner_keys_acc_next t x step m n :
  od_keys (inner_of n (acc_next (Some t) x step m)) =
  if String.eqb x n then add_once Nat.eqb step (od_keys (inner_of n m))
  else od_keys (inner_of n m).
Proof.
  unfold acc_next. destruct (iadd_pure _ _) eqn:E; [apply inner_keys_put|].
  destruct (String.eqb_spec x n) as [->|H]; [|reflexivity].
  symmetry. apply (@add_once_present _ Nat.eqb Nat.eqb_eq).
  apply (@od_get_In_keys _ _ Nat.eqb Nat.eqb_eq). rewrite <- lookup2_inner.
  eapply iadd_pure_none, E.
Qed.

(** The steps under a name grow by the step of each iteration on that name
    that reaches its assignment. *)
Lemma steps_of_next (c : rule_class) bt step x (m : store_of c) n :
  keyed_by_name c = true ->
  steps_of (exposed c (next c bt step x m)) n =
  if String.eqb x n &&
     match tensor_value bt x step with
     | Some t => writes c t
     | None => false
     end
  then add_once Nat.eqb step (steps_of (exposed c m) n)
  else steps_of (exposed c m) n.
Proof.
  intro Hk.
  destruct c; try discriminate Hk; unfold exposed, next;
    rewrite ?steps_of_cells, ?steps_of_arrays;
    destruct (tensor_value bt x step) as [t|];
    rewrite ?andb_false_r; try reflexivity; cbn [writes]; rewrite ?andb_true_r.
  - apply inner_keys_acc_next.
  - apply inner_keys_acc_next.
  - unfold range_next, is_some. destruct (np_min t).
    + rewrite andb_true_r. apply inner_keys_put.
    + rewrite andb_false_r. now rewrite inner_of_touch.
  - apply inner_keys_put.
  - apply inner_keys_put.
  - apply inner_keys_put.
Qed.

Lemma fold_left_commute {A B C} (g : A -> C) (f : A -> B -> A)
    (h : C -> B -> C) l :
  (forall a x, g (f a x) = h (g a) x) ->
  forall a, g (fold_left f l a) = fold_left h l (g a).
Proof.
  intro H. induction l as [|x l IH]; intro a; simpl; [reflexivity|].
  now rewrite IH, H.
Qed.

Lemma step_name_keys (c : rule_class) bt step (m : store_of c) :
  keyed_by_name c = true ->
  name_keys (exposed c (step_tensors c bt step m)) =
  fold_left (fun acc k => add_once String.eqb k acc)
            (fetched_names c bt step) (name_keys (exposed c m)).
Proof.
  intro Hk. unfold step_tensors, fetched_names.
  rewrite <- fold_left_filter
    with (h := fun acc k => add_once String.eqb k acc).
  apply fold_left_commute
    with (g := fun m => name_keys (exposed c m))
         (f := fun m x => next c bt step x m).
  intros a x. now apply name_keys_next.
Qed.

Lemma map_fst_pair {A B} (l : list A) (b : B) :
  map fst (map (fun a => (a, b)) l) = l.
Proof. rewrite map_map. simpl. apply map_id. Qed.

Lemma trace_name_keys (c : rule_class) trace (m : store_of c) :
  keyed_by_name c = true ->
  name_keys (exposed c (trace_tensors c trace m)) =
  fold_left (fun acc k => add_once String.eqb k acc)
            (map fst (fetched c trace)) (name_keys (exposed c m)).
Proof.
  intro Hk. revert m.
  induction trace as [|[bt step] trace IH]; intro m; [reflexivity|].
  change (trace_tensors c ((bt, step) :: trace) m)
    with (trace_tensors c trace (step_tensors c bt step m)).
  rewrite IH, step_name_keys by exact Hk.
  simpl. rewrite map_app, fold_left_app, map_fst_pair. reflexivity.
Qed.

Lemma step_step_keys bt step (m : store_of GradientsAcrossLayers) :
  step_keys (exposed GradientsAcrossLayers
               (step_tensors GradientsAcrossLayers bt step m)) =
  fold_left (fun acc k => add_once Nat.eqb k acc)
            (map (fun _ => step)
                 (fetched_names GradientsAcrossLayers bt step))
            (step_keys (exposed GradientsAcrossLayers m)).
Proof.
  unfold step_tensors, fetched_names.
  set (p := fun n => is_some (tensor_value bt n step)).
  transitivity
    (fold_left (fun acc x => if p x then add_once Nat.eqb step acc else acc)
               (selected GradientsAcrossLayers bt)
               (step_keys (exposed GradientsAcrossLayers m))).
  - apply fold_left_commute
      with (g := fun m => step_keys (exposed GradientsAcrossLayers m))
           (f := fun m x => next GradientsAcrossLayers bt step x m).
    intros a x. apply step_keys_next.
  - generalize (step_keys (exposed GradientsAcrossLayers m)).
    induction (selected GradientsAcrossLayers bt) as [|x l IH]; intro acc;
      simpl; [reflexivity|].
    destruct (p x); simpl; apply IH.
Qed.

Lemma trace_step_keys trace (m : store_of GradientsAcrossLayers) :
  step_keys (exposed GradientsAcrossLayers
               (trace_tensors GradientsAcrossLayers trace m)) =
  fold_left (fun acc k => add_once Nat.eqb k acc)
            (map snd (fetched GradientsAcrossLayers trace))
            (step_keys (exposed GradientsAcrossLayers m)).
Proof.
  revert m.
  induction trace as [|[bt step] trace IH]; intro m; [reflexivity|].
  change (trace_tensors GradientsAcrossLayers ((bt, step) :: trace) m)
    with (trace_tensors GradientsAcrossLayers trace
            (step_tensors GradientsAcrossLayers bt step m)).
  rewrite IH, step_step_keys.
  simpl. rewrite map_app, fold_left_app, map_map. reflexivity.
Qed.

Lemma step_steps_of (c : rule_class) bt step (m : store_of c) n :
  keyed_by_name c = true ->
  steps_of (exposed c (step_tensors c bt step m)) n =
  fold_left (fun acc k => add_once Nat.eqb k acc)
            (map snd
               (filter (fun p => String.eqb (fst p) n)
                       (map (fun x => (x, step)) (written_names c bt step))))
            (steps_of (exposed c m) n).
Proof.
  intro Hk. unfold step_tensors, written_names.
  set (w := fun x => match tensor_value bt x step with
                     | Some t => writes c t
                     | None => false
                     end).
  transitivity
    (fold_left (fun acc x => if String.eqb x n && w x
                             then add_once Nat.eqb step acc else acc)
               (selected c bt) (steps_of (exposed c m) n)).
  - apply fold_left_commute
      with (g := fun m => steps_of (exposed c m) n)
           (f := fun m x => next c bt step x m).
    intros a x. now apply steps_of_next.
  - generalize (steps_of (exposed c m) n).
    induction (selected c bt) as [|x l IH]; intro acc; simpl; [reflexivity|].
    destruct (w x); simpl; rewrite ?andb_false_r, ?andb_true_r; [|apply IH].
    destruct (String.eqb x n); simpl; apply IH.
Qed.

Lemma trace_steps_of (c : rule_class) trace (m : store_of c) n :
  keyed_by_name c = true ->
  steps_of (exposed c (trace_tensors c trace m)) n =
  fold_left (fun acc k => add_once Nat.eqb k acc)
            (steps_written c trace n) (steps_of (exposed c m) n).
Proof.
  intro Hk. revert m.
  induction trace as [|[bt step] trace IH]; intro m; [reflexivity|].
  change (trace_tensors c ((bt, step) :: trace) m)
    with (trace_tensors c trace (step_tensors c bt step m)).
  rewrite IH, step_steps_of by exact Hk.
  unfold steps_written. simpl.
  rewrite filter_app, map_app, fold_left_app. reflexivity.
Qed.


(** ** The aggregated pairs *)

Lemma in_fetched (c : rule_class) trace n s :
  In (n, s) (fetched c trace) <->
  exists bt, In (bt, s) trace /\ In n (selected c bt)
             /\ tensor_value bt n s <> None.
Proof.
  unfold fetched, fetched_names. rewrite in_flat_map. split.
  - intros ([bt s'] & Hx & Hin). simpl in Hin.
    apply in_map_iff in Hin as (n' & [= -> ->] & Hn).
    apply filter_In in Hn as [Hsel Hsome].
    exists bt. repeat split; auto.
    destruct (tensor_value bt n s); [congruence | discriminate].
  - intros (bt & Hx & Hsel & Hsome). exists (bt, s). split; [exact Hx|].
    simpl. apply in_map_iff. exists n. split; [reflexivity|].
    apply filter_In. split; [exact Hsel|].
    destruct (tensor_value bt n s); [reflexivity | congruence].
Qed.

Lemma entry_none_of_keys (o : output) n s :
  ~ In n (name_keys o) -> entry o n s = None.
Proof.
  destruct o as [m|m|m]; simpl; intro H; [| |reflexivity];
    (destruct (od_get String.eqb n m) eqn:E; [|reflexivity]);
    exfalso; apply H; apply (@od_get_In_keys _ _ String.eqb String.eqb_eq);
    congruence.
Qed.

Lemma name_keys_unkeyed (c : rule_class) (m : store_of c) :
  keyed_by_name c = false -> name_keys (exposed c m) = [].
Proof. destruct c; try discriminate. reflexivity. Qed.

Lemma not_excluded_false (c : rule_class) sub n :
  excluded_of c = Some sub -> str_in sub n = true -> not_excluded c n = false.
Proof. unfold not_excluded. intros -> ->. reflexivity. Qed.

Lemma NoDup_pair_with {A B} (l : list A) (b : B) :
  NoDup l -> NoDup (map (fun a => (a, b)) l).
Proof.
  induction 1 as [|a l Ha _ IH]; simpl; constructor; [|exact IH].
  intro H. apply in_map_iff in H as (a' & [= ->] & H). contradiction.
Qed.

(** ** Names a class does not select *)

Lemma fold_left_pointwise_in {A B} (f g : A -> B -> A) l :
  (forall a x, In x l -> f a x = g a x) ->
  forall a, fold_left f l a = fold_left g l a.
Proof.
  induction l as [|x l IH]; intros H a; simpl; [reflexivity|].
  rewrite H by now left. apply IH. intros a' y Hy. apply H. now right.
Qed.

Lemma next_same_value (c : rule_class) bt bt' step x (m : store_of c) :
  tensor_value bt x step = tensor_value bt' x step ->
  next c bt step x m = next c bt' step x m.
Proof. intro H. destruct c; cbn; rewrite H; reflexivity. Qed.

(** What the trial holds for a name the class does not select has no
    influence on [self.tensors]. *)
Lemma step_tensors_same_but (c : rule_class) n bt bt' step (m : store_of c) :
  same_but n bt bt' ->
  ~ In n (selected c bt) ->
  step_tensors c bt step m = step_tensors c bt' step m.
Proof.
  intros [Hnames Hvalues] Hn. unfold step_tensors, selected in *.
  rewrite <- Hnames. apply fold_left_pointwise_in.
  intros a x Hx. apply next_same_value. apply Hvalues.
  intros ->. contradiction.
Qed.

(* ================================================================= *)
(** ** A run as the sequence of its [try] statements *)

Lemma guarded_runs (c : rule_class) bt step n :
  runs_as (guarded c bt step n) (next c bt step n)
          (tensor_value bt n step) n.
Proof.
  destruct c.
  - apply ActivationOutputs_body_run.
  - apply ActivationInputs_body_run.
  - apply GradientsLayer_body_run.
  - apply GradientsAcrossLayers_body_run.
  - apply WeightRatio_body_run.
  - apply Inputs_body_run.
  - apply Outputs_body_run.
Qed.

Lemma guarded_completes (c : rule_class) bt step n self :
  snd (guarded c bt step n self) = Ok tt.
Proof.
  destruct (guarded_runs c bt step n self) as (msgs & E & _). now rewrite E.
Qed.

Lemma for_each_when {S} (p : string -> bool) (f : string -> M S unit) l s :
  for_each l (fun x => when (p x) (f x)) s = for_each (filter p l) f s.
Proof.
  revert s. induction l as [|x l IH]; intro s; simpl; [reflexivity|].
  unfold when. destruct (p x); simpl; unfold bind.
  - destruct (f x s) as [s' [[]|e]]; [apply IH | reflexivity].
  - cbn. apply IH.
Qed.

Lemma for_each_map {S A B} (g : A -> B) (f : B -> M S unit) l s :
  for_each (map g l) f s = for_each l (fun x => f (g x)) s.
Proof.
  revert s. induction l as [|x l IH]; intro s; simpl; [reflexivity|].
  unfold bind. destruct (f (g x) s) as [s' [[]|e]]; [apply IH | reflexivity].
Qed.

Lemma for_each_app {S A} (f : A -> M S unit) l1 l2 :
  (forall x s, snd (f x s) = Ok tt) ->
  forall s, fst (for_each (l1 ++ l2) f s)
            = fst (for_each l2 f (fst (for_each l1 f s))).
Proof.
  intros Hf. induction l1 as [|x l1 IH]; intro s; simpl; [reflexivity|].
  unfold bind. specialize (Hf x s).
  destruct (f x s) as [s' [[]|e]]; [apply IH | discriminate Hf].
Qed.

(** [invoke_at_step] is the sequence of the [try] statements of the selected
    names. *)
Lemma invoke_at_step_iterations (c : rule_class) bt step self :
  fst (invoke_at_step c bt step self)
  = fst (for_each (selected c bt) (guarded c bt step) self).
Proof.
  assert (G : forall (T : Type) (m : M (Rule T) unit) s,
             fst ((m ;; ret false)%monad s) = fst (m s)).
  { intros T m s. unfold bind. destruct (m s) as [s' [[]|e]]; reflexivity. }
  assert (F : forall (S : Type) (f : string -> M S unit) l s,
             for_each l f s = for_each (filter (fun _ => true) l) f s).
  { intros S f l s. f_equal. induction l; simpl; congruence. }
  destruct c; unfold invoke_at_step, selected;
    [ unfold ActivationOutputs.invoke_at_step
    | unfold ActivationInputs.invoke_at_step
    | unfold GradientsLayer.invoke_at_step
    | unfold GradientsAcrossLayers.invoke_at_step
    | unfold WeightRatio.invoke_at_step
    | unfold Inputs.invoke_at_step
    | unfold Outputs.invoke_at_step ];
    rewrite G; first [ rewrite for_each_when | rewrite F ]; reflexivity.
Qed.

Lemma in_iterations (c : rule_class) trace bt step n :
  In (bt, step, n) (iterations c trace)
  <-> In (bt, step) trace /\ In n (selected c bt).
Proof.
  unfold iterations. rewrite in_flat_map. split.
  - intros ([bt' s'] & Hx & Hin). apply in_map_iff in Hin as (n' & [=] & Hn).
    subst. simpl in *. auto.
  - intros [Hx Hn]. exists (bt, step). split; [exact Hx|].
    apply in_map_iff. exists n. auto.
Qed.

Lemma process_iterations (c : rule_class) trace self :
  process c trace self = run_iterations c (iterations c trace) self.
Proof.
  unfold process, run_iterations. revert self.
  induction trace as [|[bt step] trace IH]; intro self; simpl; [reflexivity|].
  unfold iterations. simpl. fold (iterations c trace).
  rewrite for_each_app
    by (intros [[bt' s'] n'] s; apply guarded_completes).
  rewrite for_each_map. simpl.
  rewrite IH, invoke_at_step_iterations. reflexivity.
Qed.

(* ================================================================= *)
(** * The claims *)

(** C1, as the code has it.  For every rule class, every tensor name that
    the trial lists for the regular expression of the class and that does
    not contain the excluded substring, and every step at which the fetch
    delivers a tensor (of non-zero size in the case of GradientsLayer), the
    dictionary after [invoke_at_step] holds the record of that name and
    step: the entry under (name, step) for the six classes keyed by name,
    the entry of the step for GradientsAcrossLayers. *)
Theorem C1_fetched_tensor_is_recorded :
  forall (c : rule_class) bt step self n t,
    In n (tensor_names bt (regex_of c)) ->
    not_excluded c n = true ->
    tensor_value bt n step = Some t ->
    (c = GradientsLayer -> size t <> 0) ->
    recorded (exposed c (tensors (fst (invoke_at_step c bt step self))))
             n step <> None.
Proof.
  intros c bt step self n t Hin Hex Ht Hsz.
  rewrite invoke_at_step_tensors.
  apply step_creates with (t := t); auto using writes_size.
  apply in_selected. auto.
Qed.

Lemma C1_witness :
  recorded
    (exposed ActivationOutputs
       (tensors (fst (invoke_at_step ActivationOutputs sample_trial 0
                        (init ActivationOutputs)))))
    "conv0_relu_output_0" 0 <> None.
Proof.
  apply (@C1_fetched_tensor_is_recorded ActivationOutputs sample_trial 0
           (init ActivationOutputs) "conv0_relu_output_0" ones_4_3).
  - simpl. auto.
  - reflexivity.
  - reflexivity.
  - discriminate.
Defined.

(** C1 as stated fails in two places.  GradientsLayer fetches a gradient of
    size zero and leaves no entry for (name, step): the range in its log
    line raises before the assignment.  GradientsAcrossLayers keeps its
    dictionary by step, so no entry exists under (name, step) even though
    the fetch succeeds and the step is recorded. *)
Lemma C1_counterexample :
  (In "gradient/conv0_weight"
      (tensor_names empty_gradient_trial (regex_of GradientsLayer)) /\
   not_excluded GradientsLayer "gradient/conv0_weight" = true /\
   tensor_value empty_gradient_trial "gradient/conv0_weight" 0
     = Some empty_array /\
   entry (exposed GradientsLayer
            (tensors (fst (invoke_at_step GradientsLayer empty_gradient_trial
                             0 (init GradientsLayer)))))
         "gradient/conv0_weight" 0 = None)
  /\
  (In "gradient/conv0_weight"
      (tensor_names sample_trial (regex_of GradientsAcrossLayers)) /\
   not_excluded GradientsAcrossLayers "gradient/conv0_weight" = true /\
   tensor_value sample_trial "gradient/conv0_weight" 0 = Some var_0_1 /\
   entry (exposed GradientsAcrossLayers
            (tensors (fst (invoke_at_step GradientsAcrossLayers sample_trial
                             0 (init GradientsAcrossLayers)))))
         "gradient/conv0_weight" 0 = None).
Proof.
  repeat split; try reflexivity; simpl; auto.
Qed.




(** C3 does not hold of the code: the maximum is updated in an [elif], so a
    variance that lowers the minimum never raises the maximum.  With the
    gradients fetched in the order of the variances 0.5, 0.2, 0.1 the pair
    recorded for the step is (0.1, 0) and not (0.1, 0.5); with a single
    gradient of variance 0.5 it is (0.5, 0). *)
Theorem C3_elif_loses_the_maximum :
  Forall2 feq (fetched_variances decreasing_trial 0)
          [Fin (1 # 2); Fin (1 # 5); Fin (1 # 10)]
  /\ (exists lo,
        step_entry
          (exposed GradientsAcrossLayers
             (tensors (fst (invoke_at_step GradientsAcrossLayers
                              decreasing_trial 0
                              (init GradientsAcrossLayers)))))
          0 = Some (VMinMax (lo, Fin 0))
        /\ feq lo (Fin (1 # 10)))
  /\ fold_left minmax_update [Fin (1 # 2)] (PInf, Fin 0)
     = (Fin (1 # 2), Fin 0).
Proof.
  split; [|split].
  - vm_compute. repeat constructor.
  - eexists. split; [vm_compute; reflexivity|]. vm_compute. reflexivity.
  - reflexivity.
Qed.

(** C4.  Run GradientsAcrossLayers from a fresh rule object over a trace
    that delivers each step once.  At a step where the variances of the
    fetched gradients are, in order, 0.1, 0.5 and 0.2, the pair recorded for
    the step is (0.1, 0.5). *)
Theorem C4_sample_variances :
  forall trace bt step,
    NoDup (map snd trace) ->
    In (bt, step) trace ->
    Forall2 feq (fetched_variances bt step)
            [Fin (1 # 10); Fin (1 # 2); Fin (1 # 5)] ->
    exists lo hi,
      step_entry
        (exposed GradientsAcrossLayers
           (tensors (process GradientsAcrossLayers trace
                       (init GradientsAcrossLayers))))
        step = Some (VMinMax (lo, hi))
      /\ feq lo (Fin (1 # 10)) /\ feq hi (Fin (1 # 2)).
Proof.
  intros trace bt step Hsteps Hin Hvs.
  apply in_split in Hin as (pre & post & ->).
  rewrite map_app in Hsteps. simpl in Hsteps.
  pose proof (NoDup_remove_2 _ _ _ Hsteps) as Hfresh.
  assert (Hpre : forall x, In x pre -> snd x <> step).
  { intros x Hx E. apply Hfresh. apply in_or_app. left.
    rewrite <- E. now apply in_map. }
  assert (Hpost : forall x, In x post -> snd x <> step).
  { intros x Hx E. apply Hfresh. apply in_or_app. right.
    rewrite <- E. now apply in_map. }
  rewrite process_tensors, trace_tensors_app.
  set (m := trace_tensors GradientsAcrossLayers pre
              (tensors (init GradientsAcrossLayers))).
  change (trace_tensors GradientsAcrossLayers ((bt, step) :: post) m)
    with (trace_tensors GradientsAcrossLayers post
            (step_tensors GradientsAcrossLayers bt step m)).
  pose proof (@trace_frame_step GradientsAcrossLayers post
                (step_tensors GradientsAcrossLayers bt step m) "" step Hpost)
    as F2.
  pose proof (@trace_frame_step GradientsAcrossLayers pre
                (tensors (init GradientsAcrossLayers)) "" step Hpre) as F1.
  fold m in F1. cbn [recorded exposed] in F1, F2 |- *. rewrite F2.
  cbn in F1. apply option_map_none in F1.
  unfold step_entry. rewrite step_minmax. unfold minmax_at. rewrite F1.
  inversion Hvs as [|v1 c1 l1 r1 E1 T1 Ev]; subst.
  inversion T1 as [|v2 c2 l2 r2 E2 T2]; subst.
  inversion T2 as [|v3 c3 l3 r3 E3 T3]; subst.
  inversion T3; subst.
  exists v1, v2. split; [|split; assumption].
  destruct v1 as [q1| | |]; try contradiction.
  destruct v2 as [q2| | |]; try contradiction.
  destruct v3 as [q3| | |]; try contradiction.
  simpl in E1, E2, E3.
  assert (H21 : Qltb q2 q1 = false)
    by (rewrite (Qltb_proper E2 E1); reflexivity).
  assert (H02 : Qltb 0 q2 = true)
    by (rewrite (Qltb_proper (Qeq_refl 0) E2); reflexivity).
  assert (H31 : Qltb q3 q1 = false)
    by (rewrite (Qltb_proper E3 E1); reflexivity).
  assert (H23 : Qltb q2 q3 = false)
    by (rewrite (Qltb_proper E2 E3); reflexivity).
  cbn [fold_left]. unfold minmax_update, fgt. cbn [flt fst snd].
  rewrite H21, H02. cbn [flt fst snd]. rewrite H31, H23. reflexivity.
Qed.

Lemma C4_witness :
  exists lo hi,
    step_entry
      (exposed GradientsAcrossLayers
         (tensors (process GradientsAcrossLayers
                     [(sample_trial, 0); (sample_trial, 100)]
                     (init GradientsAcrossLayers))))
      100 = Some (VMinMax (lo, hi))
    /\ feq lo (Fin (1 # 10)) /\ feq hi (Fin (1 # 2)).
Proof.
  apply (@C4_sample_variances [(sample_trial, 0); (sample_trial, 100)]
           sample_trial 100).
  - simpl. repeat constructor; simpl; intuition discriminate.
  - simpl. auto.
  - vm_compute. repeat constructor.
Defined.

(** C5.  When the fetch of one selected tensor name fails at a step,
    [invoke_at_step] still returns [False] without raising, the warning for
    that name is in the log, the dictionary after this step and after all
    later ones is the one the run would have produced had the trial not
    listed the name, and every tensor fetched at this step or at a later one
    has its record. *)
Theorem C5_failed_fetch_is_skipped :
  forall (c : rule_class) bt step rest self n,
    In n (tensor_names bt (regex_of c)) ->
    not_excluded c n = true ->
    tensor_value bt n step = None ->
    snd (invoke_at_step c bt step self) = Ok false
    /\ In (WARNING (CanNotFetch n))
          (logger (fst (invoke_at_step c bt step self)))
    /\ tensors (process c ((bt, step) :: rest) self)
       = tensors (process c ((without n bt, step) :: rest) self)
    /\ (forall bt' step' n' t',
           In (bt', step') ((bt, step) :: rest) ->
           In n' (tensor_names bt' (regex_of c)) ->
           not_excluded c n' = true ->
           tensor_value bt' n' step' = Some t' ->
           (c = GradientsLayer -> size t' <> 0) ->
           recorded (exposed c (tensors (process c ((bt, step) :: rest) self)))
                    n' step' <> None).
Proof.
  intros c bt step rest self n Hin Hex Hnone.
  destruct (invoke_at_step_run c bt step self) as (msgs & E & W).
  repeat split.
  - now rewrite E.
  - rewrite E. cbn. apply in_or_app. right. apply W; [exact Hin|].
    split; assumption.
  - rewrite !process_tensors. unfold trace_tensors. simpl.
    now rewrite step_tensors_without.
  - intros bt' step' n' t' Hin' Hn' Hex' Ht' Hsz.
    rewrite process_tensors.
    apply trace_creates with (bt := bt') (t := t'); auto using writes_size.
    apply in_selected. auto.
Qed.

Lemma C5_witness :
  snd (invoke_at_step ActivationOutputs sample_trial 0
         (init ActivationOutputs)) = Ok false
  /\ In (WARNING (CanNotFetch "conv1_relu_output_0"))
        (logger (fst (invoke_at_step ActivationOutputs sample_trial 0
                        (init ActivationOutputs))))
  /\ recorded
       (exposed ActivationOutputs
          (tensors (process ActivationOutputs
                      [(sample_trial, 0); (sample_trial, 100)]
                      (init ActivationOutputs))))
       "conv0_relu_output_0" 100 <> None.
Proof.
  destruct (@C5_failed_fetch_is_skipped ActivationOutputs sample_trial 0
              [(sample_trial, 100)] (init ActivationOutputs)
              "conv1_relu_output_0")
    as (H1 & H2 & _ & H4).
  - simpl. auto.
  - reflexivity.
  - reflexivity.
  - split; [exact H1|]. split; [exact H2|].
    apply (H4 sample_trial 100 "conv0_relu_output_0" ones_4_3).
    + simpl. auto.
    + simpl. auto.
    + reflexivity.
    + reflexivity.
    + discriminate.
Defined.

(** C6.  The driver ends every trace by raising [NoMoreData]; the cell's
    handler catches it, prints the message and completes normally.  The rule
    object the cell leaves is the one at the moment of the signal, and every
    record present after any earlier part of the trace is still present in
    it. *)
Theorem C6_no_more_data_is_caught :
  forall (c : rule_class) (trace : list notification),
    invoke_rule (invoke_at_step c) trace (init c)
      = (process c trace (init c), Raise NoMoreData)
    /\ run_cell c trace
       = (mk_Session (process c trace (init c)) [expected_message], Ok tt)
    /\ (forall pre post n s,
           trace = pre ++ post ->
           recorded (exposed c (tensors (process c pre (init c)))) n s
             <> None ->
           recorded (exposed c (tensors (rule (fst (run_cell c trace))))) n s
             <> None).
Proof.
  intros c trace. split; [apply invoke_rule_run|].
  split; [apply run_cell_run|].
  intros pre post n s -> H. rewrite run_cell_run. cbn.
  rewrite process_app, process_tensors. now apply trace_keeps.
Qed.

Lemma C6_witness :
  recorded
    (exposed GradientsLayer
       (tensors (rule (fst (run_cell GradientsLayer
                              [(sample_trial, 0); (sample_trial, 100)])))))
    "gradient/conv0_weight" 0 <> None.
Proof.
  apply (proj2 (proj2 (C6_no_more_data_is_caught GradientsLayer
                         [(sample_trial, 0); (sample_trial, 100)]))
           [(sample_trial, 0)] [(sample_trial, 100)]).
  - reflexivity.
  - vm_compute. discriminate.
Defined.

(** C7.  Start any rule class from a fresh rule object.  A tensor name that
    no trial of the trace lists for the regular expression of the class, or
    that contains the excluded substring of the class, is never a key of
    [rule.tensors], never has an entry at any step, and contributes to no
    entry: the dictionary is the same whatever the trials hold for that
    name. *)
Theorem C7_unselected_names_get_no_entry :
  forall (c : rule_class) trace n,
    (forall bt step, In (bt, step) trace ->
                     ~ In n (tensor_names bt (regex_of c)))
    \/ (exists sub, excluded_of c = Some sub /\ str_in sub n = true) ->
    ~ In n (name_keys (exposed c (tensors (process c trace (init c)))))
    /\ (forall step,
          entry (exposed c (tensors (process c trace (init c)))) n step = None)
    /\ (forall trace',
          same_trace_but n trace trace' ->
          tensors (process c trace' (init c))
          = tensors (process c trace (init c))).
Proof.
  intros c trace n H.
  assert (Hsel : forall bt step, In (bt, step) trace -> ~ In n (selected c bt)).
  { intros bt step Hx Hin. apply in_selected in Hin as [Hnames Hex].
    destruct H as [H | (sub & Hsub & Hstr)].
    - exact (H bt step Hx Hnames).
    - rewrite (not_excluded_false c n Hsub Hstr) in Hex. discriminate. }
  assert (Hkeys : ~ In n (name_keys
                            (exposed c (tensors (process c trace (init c)))))).
  { rewrite process_tensors.
    destruct (keyed_by_name c) eqn:Hk;
      [|rewrite name_keys_unkeyed by exact Hk; auto].
    rewrite trace_name_keys by exact Hk.
    rewrite (@in_fold_add_once _ String.eqb String.eqb_eq).
    intros [Hinit | Hin].
    - destruct c; exact Hinit.
    - apply in_map_iff in Hin as ([n' s] & E & Hin). simpl in E. subst n'.
      apply in_fetched in Hin as (bt & Hx & Hin & _).
      exact (Hsel bt s Hx Hin). }
  split; [exact Hkeys|].
  split; [intro step; now apply entry_none_of_keys|].
  intros trace' Hsame. rewrite !process_tensors.
  generalize (tensors (init c)). clear Hkeys H.
  induction Hsame as [|[bt step] [bt' step'] trace trace' [Hs Hb] _ IH];
    intro m; [reflexivity|].
  simpl in Hs, Hb. subst step'.
  change (trace_tensors c ((bt', step) :: trace') m)
    with (trace_tensors c trace' (step_tensors c bt' step m)).
  change (trace_tensors c ((bt, step) :: trace) m)
    with (trace_tensors c trace (step_tensors c bt step m)).
  rewrite <- (@step_tensors_same_but c n bt bt' step m Hb)
    by (apply (Hsel bt step); now left).
  apply IH. intros bt0 s0 H0. apply (Hsel bt0 s0). now right.
Qed.

Lemma C7_witness :
  ~ In "gradients/conv0_relu_output_0"
       (name_keys
          (exposed ActivationOutputs
             (tensors (process ActivationOutputs
                         [(sample_trial, 0); (sample_trial, 100)]
                         (init ActivationOutputs)))))
  /\ forall step,
       entry (exposed ActivationOutputs
                (tensors (process ActivationOutputs
                            [(sample_trial, 0); (sample_trial, 100)]
                            (init ActivationOutputs))))
             "gradients/conv0_relu_output_0" step = None.
Proof.
  destruct (@C7_unselected_names_get_no_entry ActivationOutputs
              [(sample_trial, 0); (sample_trial, 100)]
              "gradients/conv0_relu_output_0") as (H1 & H2 & _).
  - right. exists "gradients". split; reflexivity.
  - split; [exact H1 | exact H2].
Defined.

(** C8, as the code has it.  A run executes the [try] statement of the
    class once for every notification and every tensor name selected there,
    in order, and does nothing else to the rule object.  Over a trace that
    delivers no step twice, as every trace with strictly increasing steps
    does, with trials that select no tensor name twice, no (tensor name,
    step) pair occurs twice among these executions.  And in every trace, the
    record of a (name, step) pair is left as it is by the processing of
    every notification of another step. *)
Theorem C8_each_pair_once_when_no_step_is_repeated :
  forall (c : rule_class) trace,
    (forall self,
        process c trace self = run_iterations c (iterations c trace) self)
    /\ (NoDup (map snd trace) ->
        (forall bt step, In (bt, step) trace -> NoDup (selected c bt)) ->
        NoDup (aggregated c trace))
    /\ forall pre post self n s,
         trace = pre ++ post ->
         (forall x, In x post -> snd x <> s) ->
         recorded (exposed c (tensors (process c (pre ++ post) self))) n s
         = recorded (exposed c (tensors (process c pre self))) n s.
Proof.
  intros c trace. split; [|split].
  - intro self. apply process_iterations.
  - intros Hsteps Hnames. unfold aggregated.
    induction trace as [|[bt step] trace IH]; [constructor|].
    simpl in Hsteps. apply NoDup_cons_iff in Hsteps as [Hnew Hs].
    unfold iterations. simpl. rewrite map_app, map_map. simpl.
    apply NoDup_app.
    + apply NoDup_pair_with. apply (Hnames bt step). now left.
    + apply IH; [exact Hs|]. intros bt' s' H. apply (Hnames bt' s'). now right.
    + intros [n s] H1 H2.
      apply in_map_iff in H1 as (n1 & E1 & _).
      apply in_map_iff in H2 as ([[bt2 s2] n2] & E2 & Hx).
      simpl in E1, E2. inversion E1. inversion E2. subst.
      apply in_iterations in Hx as [Hx _].
      apply Hnew. apply (in_map snd) in Hx. exact Hx.
  - intros pre post self n s _ Hpost.
    rewrite process_app, !process_tensors.
    apply trace_frame_step. exact Hpost.
Qed.

Lemma C8_witness :
  process ActivationOutputs [(sample_trial, 0); (sample_trial, 100)]
          (init ActivationOutputs)
  = run_iterations ActivationOutputs
      [(sample_trial, 0, "conv0_relu_output_0");
       (sample_trial, 0, "conv1_relu_output_0");
       (sample_trial, 100, "conv0_relu_output_0");
       (sample_trial, 100, "conv1_relu_output_0")]
      (init ActivationOutputs)
  /\ NoDup (aggregated ActivationOutputs
              [(sample_trial, 0); (sample_trial, 100)])
  /\ recorded
       (exposed ActivationOutputs
          (tensors (process ActivationOutputs
                      ([(sample_trial, 0)] ++ [(sample_trial, 100)])
                      (init ActivationOutputs))))
       "conv0_relu_output_0" 0
     = recorded
         (exposed ActivationOutputs
            (tensors (process ActivationOutputs [(sample_trial, 0)]
                        (init ActivationOutputs))))
         "conv0_relu_output_0" 0.
Proof.
  destruct (@C8_each_pair_once_when_no_step_is_repeated ActivationOutputs
              [(sample_trial, 0); (sample_trial, 100)]) as (H1 & H2 & H3).
  split; [exact (H1 (init ActivationOutputs))|]. split.
  - apply H2.
    + simpl. repeat constructor; simpl; intuition discriminate.
    + intros bt step [[= <- <-] | [[= <- <-] | []]];
        simpl; repeat constructor; simpl; intuition discriminate.
  - apply (H3 [(sample_trial, 0)] [(sample_trial, 100)]).
    + reflexivity.
    + intros x [<- | []]. discriminate.
Defined.

(** C8 as stated fails: a trace that delivers step 0 twice is in
    non-decreasing order, yet ActivationOutputs aggregates the pair
    (conv0_relu_output_0, 0) twice, and the second pass changes the value the
    first one wrote, from 1 to 2 in every feature. *)
Lemma C8_counterexample :
  StronglySorted le (map snd repeated_trace)
  /\ (forall bt step, In (bt, step) repeated_trace ->
        NoDup (tensor_names bt (regex_of ActivationOutputs)))
  /\ process ActivationOutputs repeated_trace (init ActivationOutputs)
     = run_iterations ActivationOutputs
         [(sample_trial, 0, "conv0_relu_output_0");
          (sample_trial, 0, "conv1_relu_output_0");
          (sample_trial, 0, "conv0_relu_output_0");
          (sample_trial, 0, "conv1_relu_output_0")]
         (init ActivationOutputs)
  /\ ~ NoDup (aggregated ActivationOutputs repeated_trace)
  /\ exists a1 a2,
       recorded
         (exposed ActivationOutputs
            (tensors (process ActivationOutputs [(sample_trial, 0)]
                        (init ActivationOutputs))))
         "conv0_relu_output_0" 0 = Some (VCell (CArr a1))
       /\ recorded
            (exposed ActivationOutputs
               (tensors (process ActivationOutputs repeated_trace
                           (init ActivationOutputs))))
            "conv0_relu_output_0" 0 = Some (VCell (CArr a2))
       /\ Forall2 feq (items a1) [Fin 1; Fin 1; Fin 1]
       /\ Forall2 feq (items a2) [Fin 2; Fin 2; Fin 2].
Proof.
  split; [|split; [|split; [|split]]].
  - simpl. repeat constructor.
  - intros bt step [[= <- <-] | [[= <- <-] | []]];
      simpl; repeat constructor; simpl; intuition discriminate.
  - vm_compute. reflexivity.
  - vm_compute. intro H. inversion H as [|x l Hnot _]. apply Hnot.
    right. now left.
  - eexists. eexists. split; [vm_compute; reflexivity|].
    split; [vm_compute; reflexivity|].
    split; repeat constructor; vm_compute; reflexivity.
Qed.

(** C9, as the code has it.  After a run from a fresh rule object, the six
    classes keyed by name expose the tensor names in the order in which they
    were first fetched, each with its steps in the order in which they were
    first written; GradientsAcrossLayers exposes no tensor names: its keys
    are the steps, in the order in which they were first processed with a
    successful fetch, each mapped to a (min, max) pair. *)
Theorem C9_keys_in_encounter_order :
  forall (c : rule_class) trace,
    if keyed_by_name c then
      name_keys (exposed c (tensors (process c trace (init c))))
        = encounter_order String.eqb (map fst (fetched c trace))
      /\ forall n,
           steps_of (exposed c (tensors (process c trace (init c)))) n
           = encounter_order Nat.eqb (steps_written c trace n)
    else
      name_keys (exposed c (tensors (process c trace (init c)))) = []
      /\ step_keys (exposed c (tensors (process c trace (init c))))
         = encounter_order Nat.eqb (map snd (fetched c trace)).
Proof.
  intros c trace. rewrite process_tensors.
  destruct (keyed_by_name c) eqn:Hk.
  - split.
    + rewrite trace_name_keys by exact Hk. destruct c; reflexivity.
    + intro n. rewrite trace_steps_of by exact Hk. destruct c; reflexivity.
  - split; [now apply name_keys_unkeyed|].
    destruct c; try discriminate Hk. apply trace_step_keys.
Qed.

(** C9 as stated fails for GradientsAcrossLayers: three tensor names are
    fetched at step 0, but none of them is a key of what the rule exposes;
    the only key is the step. *)
Lemma C9_counterexample :
  map fst (fetched GradientsAcrossLayers [(sample_trial, 0)])
    = ["gradient/conv0_weight"; "gradient/conv1_weight";
       "gradient/dense0_weight"]
  /\ name_keys
       (exposed GradientsAcrossLayers
          (tensors (process GradientsAcrossLayers [(sample_trial, 0)]
                      (init GradientsAcrossLayers))))
     = []
  /\ step_keys
       (exposed GradientsAcrossLayers
          (tensors (process GradientsAcrossLayers [(sample_trial, 0)]
                      (init GradientsAcrossLayers))))
     = [0]
  /\ name_keys
       (exposed GradientsAcrossLayers
          (tensors (process GradientsAcrossLayers [(sample_trial, 0)]
                      (init GradientsAcrossLayers))))
     <> encounter_order String.eqb
          (map fst (fetched GradientsAcrossLayers [(sample_trial, 0)])).
Proof.
  repeat split; try (vm_compute; reflexivity).
  vm_compute. discriminate.
Qed.

(** C10.  For every rule class of the notebook, every state of the trial and
    of the rule object and every step, [invoke_at_step] returns [False]; the
    driver therefore never stops on the rule condition: on every trace it
    ends with the "no more data" signal. *)
Theorem C10_invoke_at_step_returns_false :
  forall (c : rule_class),
    (forall bt step self, snd (invoke_at_step c bt step self) = Ok false) /\
    (forall trace self,
        snd (invoke_rule (invoke_at_step c) trace self) = Raise NoMoreData).
Proof.
  intro c. split.
  - intros. apply invoke_at_step_result.
  - intros. now rewrite invoke_rule_run.
Qed.

(* ================================================================= *)
(** * Further properties of the notebook's code *)

(** ** The cell that waits for the training job *)

Lemma poll_accessible answers w :
  tensors_accessible (description w) = true -> poll answers w = Some (w, answers).
Proof. intro H. destruct answers; simpl; now rewrite H. Qed.

Lemma poll_leaves (pre post : list Description) d w :
  tensors_accessible (description w) = false ->
  Forall (fun a => tensors_accessible a = false) pre ->
  tensors_accessible d = true ->
  poll (pre ++ d :: post) w =
  Some (mk_Waiting d (printed w ++ map status_line (pre ++ [d]))
                   (slept w + 15 * (length pre + 1)),
        post).
Proof.
  intros Hw Hpre Hd. revert w Hw.
  induction Hpre as [|a pre Ha _ IH]; intros w Hw; cbn [app poll]; rewrite Hw.
  - rewrite poll_accessible by exact Hd. reflexivity.
  - rewrite IH by exact Ha. cbn [printed slept description].
    f_equal. f_equal. f_equal.
    + rewrite <- app_assoc. reflexivity.
    + cbn [length]. lia.
Qed.

Lemma poll_sound answers w w' rest :
  poll answers w = Some (w', rest) ->
  tensors_accessible (description w') = true
  /\ exists asked,
       answers = asked ++ rest
       /\ printed w' = printed w ++ map status_line asked
       /\ slept w' = slept w + 15 * length asked.
Proof.
  revert w. induction answers as [|d answers IH]; intro w; simpl.
  - destruct (tensors_accessible (description w)) eqn:E; [|discriminate].
    intros [= <- <-]. split; [exact E|]. exists [].
    simpl. rewrite app_nil_r. repeat split; lia.
  - destruct (tensors_accessible (description w)) eqn:E.
    + intros [= <- <-]. split; [exact E|]. exists [].
      simpl. rewrite app_nil_r. repeat split; lia.
    + intro H. apply IH in H as (Hacc & asked & -> & Hp & Hs).
      split; [exact Hacc|]. exists (d :: asked). simpl in *.
      rewrite Hp, Hs, <- app_assoc. simpl. repeat split; lia.
Qed.

Lemma poll_waits answers w :
  tensors_accessible (description w) = false ->
  Forall (fun a => tensors_accessible a = false) answers ->
  poll answers w = None.
Proof.
  intros Hw Hall. revert w Hw.
  induction Hall as [|a answers Ha _ IH]; intros w Hw; simpl; rewrite Hw;
    [reflexivity|].
  apply IH. exact Ha.
Qed.

(** X1.  Let the description the cell starts from have a primary status
    other than Completed and a secondary status other than Training and
    Completed.  When the first answer of the service whose secondary status
    is Training or Completed is the one after [k] others, the cell asks
    exactly [k + 1] times, prints one status line per answer, sleeps 15
    seconds after each, and ends with that answer in [description]. *)
Theorem X1_wait_ends_at_first_accessible_answer :
  forall (pre post : list Description) d w,
    TrainingJobStatus (description w) <> "Completed" ->
    tensors_accessible (description w) = false ->
    Forall (fun a => tensors_accessible a = false) pre ->
    tensors_accessible d = true ->
    wait_for_training (pre ++ d :: post) w =
    Some (mk_Waiting d (printed w ++ map status_line (pre ++ [d]))
                     (slept w + 15 * (length pre + 1)),
          post).
Proof.
  intros pre post d w Hc Hw Hpre Hd. unfold wait_for_training.
  apply String.eqb_neq in Hc. rewrite Hc. simpl.
  now apply poll_leaves.
Qed.

Lemma X1_witness :
  wait_for_training
    [mk_Description "InProgress" "Starting";
     mk_Description "InProgress" "Downloading";
     mk_Description "InProgress" "Training";
     mk_Description "Completed" "Completed"]
    (mk_Waiting (mk_Description "InProgress" "Starting") [] 0)
  = Some (mk_Waiting (mk_Description "InProgress" "Training")
            ["Current job status: [PrimaryStatus: InProgress, SecondaryStatus: Starting]";
             "Current job status: [PrimaryStatus: InProgress, SecondaryStatus: Downloading]";
             "Current job status: [PrimaryStatus: InProgress, SecondaryStatus: Training]"]
            45,
          [mk_Description "Completed" "Completed"]).
Proof.
  apply (@X1_wait_ends_at_first_accessible_answer
           [mk_Description "InProgress" "Starting";
            mk_Description "InProgress" "Downloading"]
           [mk_Description "Completed" "Completed"]
           (mk_Description "InProgress" "Training")
           (mk_Waiting (mk_Description "InProgress" "Starting") [] 0)).
  - discriminate.
  - reflexivity.
  - repeat constructor.
  - reflexivity.
Defined.

(** X2.  Let the description the cell starts from have a primary status
    other than Completed and a secondary status other than Training and
    Completed.  The loop looks at the secondary status of the answers only:
    as long as the service answers with secondary statuses other than
    Training and Completed (a job that has failed or was stopped keeps doing
    so), the cell does not end, however many answers it gets. *)
Theorem X2_wait_never_ends_without_accessible_answer :
  forall (answers : list Description) w,
    TrainingJobStatus (description w) <> "Completed" ->
    tensors_accessible (description w) = false ->
    Forall (fun a => tensors_accessible a = false) answers ->
    wait_for_training answers w = None.
Proof.
  intros answers w Hc Hw Hall. unfold wait_for_training.
  apply String.eqb_neq in Hc. rewrite Hc. simpl.
  now apply poll_waits.
Qed.

Lemma X2_witness :
  wait_for_training
    (repeat (mk_Description "Failed" "Failed") 240)
    (mk_Waiting (mk_Description "InProgress" "Starting") [] 0)
  = None.
Proof.
  apply X2_wait_never_ends_without_accessible_answer.
  - discriminate.
  - reflexivity.
  - apply Forall_forall. intros a Ha. apply repeat_spec in Ha. now subst.
Defined.

(** X3.  Whenever the cell ends, either the job was completed at the start
    and the cell did nothing, or the description it ends with has secondary
    status Training or Completed; it printed one line per answer it asked
    for, in order, and slept 15 seconds for each. *)
Theorem X3_wait_ends_only_when_accessible :
  forall (answers : list Description) w w' rest,
    wait_for_training answers w = Some (w', rest) ->
    (TrainingJobStatus (description w) = "Completed"
     /\ w' = w /\ rest = answers)
    \/ (tensors_accessible (description w') = true
        /\ exists asked,
             answers = asked ++ rest
             /\ printed w' = printed w ++ map status_line asked
             /\ slept w' = slept w + 15 * length asked).
Proof.
  intros answers w w' rest. unfold wait_for_training.
  destruct (String.eqb_spec (TrainingJobStatus (description w)) "Completed")
    as [E|E]; simpl.
  - intros [= <- <-]. left. auto.
  - intro H. right. now apply poll_sound.
Qed.

Lemma X3_witness :
  tensors_accessible (mk_Description "InProgress" "Training") = true
  /\ exists asked,
       [mk_Description "InProgress" "Training";
        mk_Description "Completed" "Completed"]
       = asked ++ [mk_Description "Completed" "Completed"]
       /\ ["Current job status: [PrimaryStatus: InProgress, SecondaryStatus: Training]"]
          = [] ++ map status_line asked
       /\ 15 = 0 + 15 * length asked.
Proof.
  destruct (@X3_wait_ends_only_when_accessible
              [mk_Description "InProgress" "Training";
               mk_Description "Completed" "Completed"]
              (mk_Waiting (mk_Description "InProgress" "Starting") [] 0)
              (mk_Waiting (mk_Description "InProgress" "Training")
                 ["Current job status: [PrimaryStatus: InProgress, SecondaryStatus: Training]"]
                 15)
              [mk_Description "Completed" "Completed"] eq_refl)
    as [(H & _) | H].
  - discriminate H.
  - exact H.
Defined.

(** ** The cells that compare the two training jobs *)






(** ** Which entries a run leaves *)

Lemma in_written (c : rule_class) trace n s :
  In (n, s) (written c trace) <-> written_somewhere c trace n s.
Proof.
  unfold written, written_names, written_somewhere.
  rewrite in_flat_map. split.
  - intros ([bt s'] & Hx & Hin). simpl in Hin.
    apply in_map_iff in Hin as (n' & [= -> ->] & Hn).
    apply filter_In in Hn as [Hsel Hw].
    destruct (tensor_value bt n s) as [t|] eqn:E; [|discriminate].
    exists bt, t. auto.
  - intros (bt & t & Hx & Hsel & Ht & Hw). exists (bt, s).
    split; [exact Hx|]. simpl. apply in_map_iff. exists n.
    split; [reflexivity|]. apply filter_In. split; [exact Hsel|].
    now rewrite Ht.
Qed.

Lemma entry_steps_of (o : output) n s :
  entry o n s <> None <-> In s (steps_of o n).
Proof.
  destruct o as [m|m|m]; simpl; [| |tauto];
    destruct (od_get String.eqb n m) as [d|]; simpl; try tauto;
    rewrite option_map_some_iff;
    apply (@od_get_In_keys _ _ Nat.eqb Nat.eqb_eq).
Qed.

Lemma step_entry_step_keys (o : output) s :
  step_entry o s <> None <-> In s (step_keys o).
Proof.
  destruct o as [m|m|m]; simpl; try tauto.
  rewrite option_map_some_iff.
  apply (@od_get_In_keys _ _ Nat.eqb Nat.eqb_eq).
Qed.

(** X5.  After a run from a fresh rule object the dictionary holds a record
    exactly where the run wrote one.  For the six classes keyed by name, an
    entry exists under (name, step) if and only if some notification of that
    step listed the name, the class selected it, the fetch delivered a tensor
    and the body reached its assignment (always, except for a tensor of size
    zero in GradientsLayer).  For GradientsAcrossLayers an entry exists for
    a step if and only if some gradient was fetched at that step. *)
Theorem X5_entries_are_exactly_the_written_ones :
  forall (c : rule_class) trace n s,
    recorded (exposed c (tensors (process c trace (init c)))) n s <> None
    <-> if keyed_by_name c then written_somewhere c trace n s
        else exists n', written_somewhere c trace n' s.
Proof.
  intros c trace n s. rewrite process_tensors.
  destruct (keyed_by_name c) eqn:Hk; split.
  - intro H.
    assert (He : entry (exposed c (trace_tensors c trace (tensors (init c))))
                       n s <> None) by (destruct c; try discriminate; exact H).
    apply entry_steps_of in He. rewrite trace_steps_of in He by exact Hk.
    apply (@in_fold_add_once _ Nat.eqb Nat.eqb_eq) in He as [He | He];
      [destruct c; contradiction|].
    unfold steps_written in He.
    apply in_map_iff in He as ([n' s'] & E & He). simpl in E. subst s'.
    apply filter_In in He as [He Hn]. simpl in Hn.
    apply String.eqb_eq in Hn. subst n'. now apply in_written.
  - intros (bt & t & Hx & Hsel & Ht & Hw).
    now apply trace_creates with (bt := bt) (t := t).
  - intro H. destruct c; try discriminate Hk.
    cbn [recorded exposed] in H. apply step_entry_step_keys in H.
    change (MinMaxByStep
              (trace_tensors GradientsAcrossLayers trace
                 (tensors (init GradientsAcrossLayers))))
      with (exposed GradientsAcrossLayers
              (trace_tensors GradientsAcrossLayers trace
                 (tensors (init GradientsAcrossLayers)))) in H.
    rewrite trace_step_keys in H.
    apply (@in_fold_add_once _ Nat.eqb Nat.eqb_eq) in H as [H | H];
      [contradiction|].
    apply in_map_iff in H as ([n' s'] & E & H). simpl in E. subst s'.
    apply in_fetched in H as (bt & Hx & Hsel & Hsome).
    destruct (tensor_value bt n' s) as [t|] eqn:Ht; [|congruence].
    exists n', bt, t. auto.
  - intros (n' & bt & t & Hx & Hsel & Ht & Hw).
    destruct c; try discriminate Hk.
    apply (@trace_creates GradientsAcrossLayers trace bt s n' t); auto.
Qed.

(** ** Keys only grow *)

Lemma fold_add_once_prefix {K} (eqb : K -> K -> bool) l acc :
  is_prefix acc (fold_left (fun a k => add_once eqb k a) l acc).
Proof.
  revert acc. induction l as [|k l IH]; intro acc; simpl.
  - exists []. now rewrite app_nil_r.
  - destruct (IH (add_once eqb k acc)) as [suffix E]. rewrite E.
    unfold add_once. destruct (existsb (eqb k) acc).
    + now exists suffix.
    + exists ([k] ++ suffix). now rewrite app_assoc.
Qed.

Lemma is_prefix_refl {A} (l : list A) : is_prefix l l.
Proof. exists []. now rewrite app_nil_r. Qed.

(** X6.  Processing more notifications never removes or reorders keys: for
    every class and every rule object, the keys of [rule.tensors] and the
    steps under each tensor name after a part of a trace are an initial
    segment of those after the whole trace. *)
Theorem X6_keys_only_grow_at_the_end :
  forall (c : rule_class) pre post self,
    is_prefix
      (name_keys (exposed c (tensors (process c pre self))))
      (name_keys (exposed c (tensors (process c (pre ++ post) self))))
    /\ is_prefix
         (step_keys (exposed c (tensors (process c pre self))))
         (step_keys (exposed c (tensors (process c (pre ++ post) self))))
    /\ forall n,
         is_prefix
           (steps_of (exposed c (tensors (process c pre self))) n)
           (steps_of (exposed c (tensors (process c (pre ++ post) self))) n).
Proof.
  intros c pre post self.
  rewrite process_app, (process_tensors c post).
  set (m := tensors (process c pre self)).
  destruct (keyed_by_name c) eqn:Hk.
  - split; [|split].
    + rewrite trace_name_keys by exact Hk. apply fold_add_once_prefix.
    + destruct c; try discriminate Hk; apply is_prefix_refl.
    + intro n. rewrite trace_steps_of by exact Hk. apply fold_add_once_prefix.
  - destruct c; try discriminate Hk. split; [|split].
    + apply is_prefix_refl.
    + rewrite trace_step_keys. apply fold_add_once_prefix.
    + intro n. apply is_prefix_refl.
Qed.

(** ** The classes that store the fetched array *)

Lemma entry_next_array (c : rule_class) bt step n t (m : store_of c) :
  stores_arrays c = true ->
  tensor_value bt n step = Some t ->
  writes c t = true ->
  entry (exposed c (next c bt step n m)) n step = Some (VArray t).
Proof.
  intros Hc Ht Hw.
  destruct c; try discriminate Hc; unfold exposed, next;
    rewrite entry_arrays, Ht; unfold raw_next, range_next.
  - cbn in Hw. destruct (np_min t); [|discriminate].
    now rewrite lookup2_put_same.
  - now rewrite lookup2_put_same.
  - now rewrite lookup2_put_same.
  - now rewrite lookup2_put_same.
Qed.

Lemma entry_next_array_kept (c : rule_class) bt step n t x (m : store_of c) :
  stores_arrays c = true ->
  tensor_value bt n step = Some t ->
  writes c t = true ->
  entry (exposed c m) n step = Some (VArray t) ->
  entry (exposed c (next c bt step x m)) n step = Some (VArray t).
Proof.
  intros Hc Ht Hw He. destruct (string_dec x n) as [->|Hx].
  - now apply entry_next_array.
  - now rewrite next_frame_name.
Qed.

Lemma fold_next_array (c : rule_class) bt step l n t :
  stores_arrays c = true ->
  In n l ->
  tensor_value bt n step = Some t ->
  writes c t = true ->
  forall m : store_of c,
    entry (exposed c (fold_left (fun m x => next c bt step x m) l m)) n step
    = Some (VArray t).
Proof.
  intros Hc Hin Ht Hw. induction l as [|x l IH]; intro m; [contradiction|].
  simpl. destruct (in_dec string_dec n l) as [Hl|Hl]; [now apply IH|].
  destruct Hin as [->|Hin]; [|contradiction].
  apply (fold_left_preserves
           (fun m' => entry (exposed c m') n step = Some (VArray t))).
  - intros a y _. now apply entry_next_array_kept.
  - now apply entry_next_array.
Qed.

(** X7.  GradientsLayer, WeightRatio, Inputs and Outputs keep the fetched
    array itself, and the last delivery of a step wins: whatever the rule
    object held before, after a trace the entry under (name, step) is the
    tensor fetched at the last notification of that step (of non-zero size
    in the case of GradientsLayer). *)
Theorem X7_array_rules_keep_the_last_fetched_tensor :
  forall (c : rule_class) pre bt step post self n t,
    stores_arrays c = true ->
    (forall x, In x post -> snd x <> step) ->
    In n (tensor_names bt (regex_of c)) ->
    not_excluded c n = true ->
    tensor_value bt n step = Some t ->
    (c = GradientsLayer -> size t <> 0) ->
    entry (exposed c (tensors (process c (pre ++ (bt, step) :: post) self)))
          n step
    = Some (VArray t).
Proof.
  intros c pre bt step post self n t Hc Hpost Hn Hex Ht Hsz.
  rewrite process_tensors, trace_tensors_app.
  set (m := trace_tensors c pre (tensors self)).
  change (trace_tensors c ((bt, step) :: post) m)
    with (trace_tensors c post (step_tensors c bt step m)).
  pose proof (@trace_frame_step c post (step_tensors c bt step m) n step Hpost)
    as F.
  assert (E : entry (exposed c (step_tensors c bt step m)) n step
              = Some (VArray t)).
  { apply fold_next_array; auto using writes_size.
    apply in_selected. auto. }
  destruct c; try discriminate Hc; cbn [recorded exposed] in *;
    now rewrite F.
Qed.

Lemma X7_witness :
  entry (exposed WeightRatio
           (tensors (process WeightRatio
                       ([(sample_trial, 0)] ++ (sample_trial, 0)
                        :: [(sample_trial, 100)])
                       (init WeightRatio))))
        "conv0_weight" 0
  = Some (VArray var_0_5).
Proof.
  apply (@X7_array_rules_keep_the_last_fetched_tensor WeightRatio
           [(sample_trial, 0)] sample_trial 0 [(sample_trial, 100)]
           (init WeightRatio) "conv0_weight" var_0_5).
  - reflexivity.
  - intros x [<- | []]. simpl. discriminate.
  - simpl. auto.
  - reflexivity.
  - reflexivity.
  - discriminate.
Defined.

Lemma put_unchanged {V} n s (v : V) m :
  lookup2 n s m = Some v -> put n s v m = m.
Proof.
  unfold lookup2, put, inner_of.
  destruct (od_get String.eqb n m) as [d|] eqn:E; [|discriminate].
  intro H. rewrite (nset_unchanged _ _ H).
  now apply od_set_unchanged.
Qed.

Lemma touch_unchanged {V} n (m : name_store V) :
  In n (od_keys m) -> touch n m = m.
Proof.
  intro H. unfold touch. rewrite od_mem_existsb.
  apply (@existsb_eqb_In _ String.eqb String.eqb_eq) in H. now rewrite H.
Qed.

(** What one iteration on [x] has settled: the tensor is in place, or, when
    the body does not reach the assignment, the name is. *)
Lemma next_array_settles (c : rule_class) bt step x (m : store_of c) :
  stores_arrays c = true ->
  settled c bt step x (next c bt step x m).
Proof.
  intro Hc. unfold settled.
  destruct (tensor_value bt x step) as [t|] eqn:Ht; [|exact I].
  destruct (writes c t) eqn:Hw.
  - now apply entry_next_array.
  - destruct c; try discriminate Hc; try discriminate Hw.
    unfold exposed, next, name_keys, range_next. rewrite Ht.
    cbn in Hw. destruct (np_min t); [discriminate|].
    rewrite od_keys_touch.
    apply (@in_add_once _ String.eqb String.eqb_eq). now right.
Qed.

Lemma next_array_keeps_settled (c : rule_class) bt step x y (m : store_of c) :
  stores_arrays c = true ->
  settled c bt step x m ->
  settled c bt step x (next c bt step y m).
Proof.
  intros Hc H. unfold settled in *.
  destruct (tensor_value bt x step) as [t|] eqn:Ht; [|exact I].
  destruct (writes c t) eqn:Hw.
  - now apply entry_next_array_kept.
  - rewrite name_keys_next by (destruct c; try discriminate Hc; reflexivity).
    destruct (is_some (tensor_value bt y step)); [|exact H].
    apply (@in_add_once _ String.eqb String.eqb_eq). now left.
Qed.

Lemma next_array_fixed (c : rule_class) bt step x (m : store_of c) :
  stores_arrays c = true ->
  settled c bt step x m ->
  next c bt step x m = m.
Proof.
  intros Hc H. unfold settled in H.
  destruct (tensor_value bt x step) as [t|] eqn:Ht;
    [|now apply next_none].
  destruct c; try discriminate Hc; unfold exposed, next in *;
    rewrite Ht; cbn [writes] in H; unfold raw_next, range_next;
    rewrite ?entry_arrays in H.
  - unfold is_some in H. destruct (np_min t).
    + apply put_unchanged.
      destruct (lookup2 x step m); [|discriminate]. now injection H as ->.
    + now apply touch_unchanged.
  - apply put_unchanged.
    destruct (lookup2 x step m); [|discriminate]. now injection H as ->.
  - apply put_unchanged.
    destruct (lookup2 x step m); [|discriminate]. now injection H as ->.
  - apply put_unchanged.
    destruct (lookup2 x step m); [|discriminate]. now injection H as ->.
Qed.

Lemma fold_next_settles (c : rule_class) bt step l :
  stores_arrays c = true ->
  forall m : store_of c,
    Forall (fun x => settled c bt step x
                       (fold_left (fun m x => next c bt step x m) l m)) l.
Proof.
  intro Hc. induction l as [|x l IH]; intro m; simpl; constructor.
  - apply (fold_left_preserves (fun m' => settled c bt step x m')).
    + intros a y _. now apply next_array_keeps_settled.
    + now apply next_array_settles.
  - apply IH.
Qed.

Lemma fold_next_fixed (c : rule_class) bt step l (m : store_of c) :
  stores_arrays c = true ->
  Forall (fun x => settled c bt step x m) l ->
  fold_left (fun m x => next c bt step x m) l m = m.
Proof.
  intros Hc H. induction H as [|x l Hx _ IH]; simpl; [reflexivity|].
  rewrite next_array_fixed by assumption. exact IH.
Qed.

Lemma step_tensors_idempotent (c : rule_class) bt step (m : store_of c) :
  stores_arrays c = true ->
  step_tensors c bt step (step_tensors c bt step m) = step_tensors c bt step m.
Proof.
  intro Hc. unfold step_tensors at 1. apply fold_next_fixed; [exact Hc|].
  now apply fold_next_settles.
Qed.

(** X8.  For GradientsLayer, WeightRatio, Inputs and Outputs a step that is
    delivered twice in a row, with the trial unchanged, leaves the same
    dictionary as a single delivery. *)
Theorem X8_array_rules_ignore_a_repeated_delivery :
  forall (c : rule_class) pre bt step post self,
    stores_arrays c = true ->
    tensors (process c (pre ++ (bt, step) :: (bt, step) :: post) self)
    = tensors (process c (pre ++ (bt, step) :: post) self).
Proof.
  intros c pre bt step post self Hc.
  rewrite !process_tensors, !trace_tensors_app.
  set (m := trace_tensors c pre (tensors self)).
  change (trace_tensors c ((bt, step) :: (bt, step) :: post) m)
    with (trace_tensors c post
            (step_tensors c bt step (step_tensors c bt step m))).
  now rewrite step_tensors_idempotent.
Qed.

Lemma X8_witness :
  tensors (process GradientsLayer
             ([] ++ (sample_trial, 0) :: (sample_trial, 0)
              :: [(sample_trial, 100)])
             (init GradientsLayer))
  = tensors (process GradientsLayer
               ([] ++ (sample_trial, 0) :: [(sample_trial, 100)])
               (init GradientsLayer)).
Proof.
  apply (@X8_array_rules_ignore_a_repeated_delivery GradientsLayer []
           sample_trial 0 [(sample_trial, 100)] (init GradientsLayer)).
  reflexivity.
Defined.

(** ** The classes that add up batch averages *)












(** ** The cross-layer rule: what the pair of a step holds *)

Lemma Qltb_true x y : Qltb x y = true <-> (x < y)%Q.
Proof.
  unfold Qltb. rewrite negb_true_iff. split.
  - intro H. apply Qnot_le_lt. intro Hle.
    apply Qle_bool_iff in Hle. congruence.
  - intro H. destruct (Qle_bool y x) eqn:E; [|reflexivity].
    apply Qle_bool_iff in E. exfalso. now apply (Qlt_not_le x y).
Qed.

Lemma Qltb_false x y : Qltb x y = false <-> (y <= x)%Q.
Proof.
  unfold Qltb. rewrite negb_false_iff. apply Qle_bool_iff.
Qed.

(** The minimum of the pair is a lower bound of everything seen so far and
    stays one of the variances; the maximum is its old value or one of the
    variances. *)
Lemma minmax_fold_minimum rest :
  forall lo hi,
    exists lo' hi',
      fold_left minmax_update (map Fin rest) (Fin lo, hi) = (Fin lo', hi')
      /\ (lo' = lo \/ In lo' rest)
      /\ (lo' <= lo)%Q
      /\ (forall q, In q rest -> (lo' <= q)%Q)
      /\ (hi' = hi \/ exists q, hi' = Fin q /\ In q rest).
Proof.
  induction rest as [|q rest IH]; intros lo hi; simpl.
  - exists lo, hi. repeat split; auto using Qle_refl. intros q [].
  - unfold minmax_update at 2. cbn [fst snd flt].
    destruct (Qltb q lo) eqn:E.
    + apply Qltb_true in E.
      destruct (IH q hi) as (lo' & hi' & F & Hin & Hle & Hall & Hhi).
      exists lo', hi'. split; [exact F|]. repeat split.
      * destruct Hin as [-> | Hin]; auto.
      * apply Qle_trans with q; [exact Hle | now apply Qlt_le_weak].
      * intros q' [<- | Hq']; auto.
      * destruct Hhi as [-> | (q' & -> & Hq')]; eauto.
    + apply Qltb_false in E.
      destruct (fgt (Fin q) hi) eqn:G.
      * destruct (IH lo (Fin q)) as (lo' & hi' & F & Hin & Hle & Hall & Hhi).
        exists lo', hi'. split; [exact F|]. repeat split.
        -- destruct Hin as [-> | Hin]; auto.
        -- exact Hle.
        -- intros q' [<- | Hq']; auto. now apply Qle_trans with lo.
        -- right. destruct Hhi as [-> | (q' & -> & Hq')]; eauto.
      * destruct (IH lo hi) as (lo' & hi' & F & Hin & Hle & Hall & Hhi).
        exists lo', hi'. split; [exact F|]. repeat split.
        -- destruct Hin as [-> | Hin]; auto.
        -- exact Hle.
        -- intros q' [<- | Hq']; auto. now apply Qle_trans with lo.
        -- destruct Hhi as [-> | (q' & -> & Hq')]; eauto.
Qed.

(** X10.  At a step that GradientsAcrossLayers has not seen before and at
    which it fetches at least one gradient, all of them with a finite
    variance, the first component of the recorded pair is the smallest of
    the fetched variances; the second component is 0 or one of the fetched
    variances, so it never exceeds a maximum that is at least 0. *)
Theorem X10_cross_layer_minimum_is_the_smallest_variance :
  forall bt step (self : Rule (store_of GradientsAcrossLayers)) q qs,
    od_get Nat.eqb step (tensors self) = None ->
    fetched_variances bt step = map Fin (q :: qs) ->
    exists lo hi,
      step_entry
        (exposed GradientsAcrossLayers
           (tensors (fst (invoke_at_step GradientsAcrossLayers bt step self))))
        step = Some (VMinMax (Fin lo, hi))
      /\ In lo (q :: qs)
      /\ (forall q', In q' (q :: qs) -> (lo <= q')%Q)
      /\ (hi = Fin 0 \/ exists q', hi = Fin q' /\ In q' qs).
Proof.
  intros bt step self q qs Hnew Hvs.
  rewrite invoke_at_step_tensors. cbn [exposed step_entry].
  rewrite step_minmax, Hvs. cbn [map].
  unfold minmax_at. rewrite Hnew.
  change (fold_left minmax_update (Fin q :: map Fin qs) (PInf, Fin 0))
    with (fold_left minmax_update (map Fin qs) (Fin q, Fin 0)).
  destruct (minmax_fold_minimum qs q (Fin 0))
    as (lo & hi & F & Hin & Hle & Hall & Hhi).
  exists lo, hi. rewrite F. split; [reflexivity|]. repeat split.
  - destruct Hin as [-> | Hin]; [now left | now right].
  - intros q' [<- | Hq']; auto.
  - exact Hhi.
Qed.

Lemma X10_witness :
  exists lo hi,
    step_entry
      (exposed GradientsAcrossLayers
         (tensors (fst (invoke_at_step GradientsAcrossLayers decreasing_trial
                          0 (init GradientsAcrossLayers)))))
      0 = Some (VMinMax (Fin lo, hi))
    /\ (lo == 1 # 10)%Q /\ hi = Fin 0.
Proof.
  destruct (@X10_cross_layer_minimum_is_the_smallest_variance
              decreasing_trial 0 (init GradientsAcrossLayers)
              (131072 # 262144)
              [0.200000000000000000000%Q; 81920000000000 # 819200000000000]
              eq_refl)
    as (lo & hi & E & _).
  - vm_compute. reflexivity.
  - vm_compute in E. injection E as <- <-.
    eexists. eexists. split; [vm_compute; reflexivity|].
    split; reflexivity.
Defined.

(** When no later variance is below the first one, the minimum stays the
    first one and the maximum is the largest of its old value and the later
    variances. *)
Lemma minmax_fold_minimum_first rest :
  forall lo h,
    (forall r, In r rest -> (lo <= r)%Q) ->
    exists h',
      fold_left minmax_update (map Fin rest) (Fin lo, Fin h)
        = (Fin lo, Fin h')
      /\ (h <= h')%Q
      /\ (forall r, In r rest -> (r <= h')%Q)
      /\ (h' = h \/ In h' rest).
Proof.
  induction rest as [|q rest IH]; intros lo h Hlo; simpl.
  - exists h. repeat split; auto using Qle_refl. intros r [].
  - unfold minmax_update at 2. cbn [fst snd flt fgt].
    assert (E : Qltb q lo = false) by (apply Qltb_false, Hlo; now left).
    rewrite E.
    assert (Hrest : forall r, In r rest -> (lo <= r)%Q)
      by (intros r Hr; apply Hlo; now right).
    destruct (Qltb h q) eqn:G.
    + apply Qltb_true in G.
      destruct (IH lo q Hrest) as (h' & F & Hle & Hall & Hin).
      exists h'. split; [exact F|]. repeat split.
      * apply Qle_trans with q; [now apply Qlt_le_weak | exact Hle].
      * intros r [<- | Hr]; auto.
      * right. destruct Hin as [-> | Hin]; auto.
    + apply Qltb_false in G.
      destruct (IH lo h Hrest) as (h' & F & Hle & Hall & Hin).
      exists h'. split; [exact F|]. repeat split.
      * exact Hle.
      * intros r [<- | Hr]; auto. now apply Qle_trans with h.
      * destruct Hin as [-> | Hin]; auto.
Qed.

(** X11.  At a step that GradientsAcrossLayers has not seen before, if the
    first gradient it fetches has the smallest variance of at least two
    finite ones, the recorded pair is right up to the floor of 0: its first
    component is that smallest variance, its second component is at least
    every fetched variance and is 0 or one of them. *)
Theorem X11_cross_layer_pair_is_right_when_the_minimum_comes_first :
  forall bt step (self : Rule (store_of GradientsAcrossLayers)) q r qs,
    od_get Nat.eqb step (tensors self) = None ->
    fetched_variances bt step = map Fin (q :: r :: qs) ->
    (forall q', In q' (r :: qs) -> (q <= q')%Q) ->
    exists hi,
      step_entry
        (exposed GradientsAcrossLayers
           (tensors (fst (invoke_at_step GradientsAcrossLayers bt step self))))
        step = Some (VMinMax (Fin q, Fin hi))
      /\ (forall q', In q' (q :: r :: qs) -> (q' <= hi)%Q)
      /\ (hi = 0%Q \/ In hi (r :: qs)).
Proof.
  intros bt step self q r qs Hnew Hvs Hmin.
  rewrite invoke_at_step_tensors. cbn [exposed step_entry].
  rewrite step_minmax, Hvs. cbn [map].
  unfold minmax_at. rewrite Hnew.
  change (fold_left minmax_update (Fin q :: Fin r :: map Fin qs)
            (PInf, Fin 0))
    with (fold_left minmax_update (map Fin (r :: qs)) (Fin q, Fin 0)).
  destruct (@minmax_fold_minimum_first (r :: qs) q 0%Q Hmin)
    as (hi & F & Hle & Hall & Hin).
  exists hi. rewrite F. split; [reflexivity|]. split; [|exact Hin].
  intros q' [<- | Hq']; [|now apply Hall].
  apply Qle_trans with r; [apply Hmin | apply Hall]; now left.
Qed.

Lemma X11_witness :
  exists hi,
    step_entry
      (exposed GradientsAcrossLayers
         (tensors (fst (invoke_at_step GradientsAcrossLayers sample_trial 0
                          (init GradientsAcrossLayers)))))
      0 = Some (VMinMax (Fin (81920000000000 # 819200000000000), Fin hi))
    /\ (hi == 1 # 2)%Q.
Proof.
  destruct (@X11_cross_layer_pair_is_right_when_the_minimum_comes_first
              sample_trial 0 (init GradientsAcrossLayers)
              (81920000000000 # 819200000000000)
              (131072 # 262144)
              [0.200000000000000000000%Q]
              eq_refl)
    as (hi & E & _).
  - vm_compute. reflexivity.
  - intros q' [<- | [<- | []]]; vm_compute; discriminate.
  - vm_compute in E. injection E as <-.
    eexists. split; [vm_compute; reflexivity|]. reflexivity.
Defined.

(** ** What the warnings in the log say *)

Ltac close_log :=
  eexists; eexists; split; [reflexivity|]; cbn [logger]; split;
  [reflexivity | reflexivity].

Lemma GradientsLayer_body_log bt step tname :
  logs_as (try_except (GradientsLayer.try_body bt step tname)
                      (logger_warning (CanNotFetch tname)))
          (warning_for GradientsLayer bt step tname).
Proof.
  intros [m lg].
  unfold warning_for, reaches_assignment, try_except,
    GradientsLayer.try_body, fetch.
  destruct (tensor_value bt tname step) as [t|]; cbn; [|close_log].
  unfold od_mem, is_some.
  destruct (np_min t) as [lo|] eqn:Hlo.
  - destruct (np_max_min_some _ Hlo) as [hi Hhi].
    destruct (od_get String.eqb tname m) as [d|] eqn:Hd;
      crunch; rewrite ?Hlo, ?Hhi; crunch; close_log.
  - destruct (od_get String.eqb tname m) as [d|] eqn:Hd;
      crunch; rewrite ?Hlo; crunch; close_log.
Qed.

Lemma raw_body_log (c : rule_class) (msg : string -> ndarray -> message)
    bt step tname :
  (forall t, writes c t = true) ->
  logs_as (try_except
             (tensor <- fetch bt tname step ;;
              present <- has_name tname ;;
              when (negb present) (new_name tname) ;;
              logger_info (msg tname tensor) ;;
              assign tname step tensor)%monad
             (logger_warning (CanNotFetch tname)))
          (warning_for c bt step tname).
Proof.
  intros Hw [m lg].
  unfold warning_for, reaches_assignment, try_except, fetch.
  destruct (tensor_value bt tname step) as [t|]; cbn; [|close_log].
  rewrite Hw. unfold od_mem.
  destruct (od_get String.eqb tname m) as [d|] eqn:Hd; crunch; close_log.
Qed.

Local Opaque flt fgt.

Lemma GradientsAcrossLayers_body_log bt step tname :
  logs_as (try_except (GradientsAcrossLayers.try_body bt step tname)
                      (logger_warning (CanNotFetch tname)))
          (warning_for GradientsAcrossLayers bt step tname).
Proof.
  intros [m lg].
  unfold warning_for, reaches_assignment, try_except,
    GradientsAcrossLayers.try_body, fetch.
  destruct (tensor_value bt tname step) as [t|]; cbn; [|close_log].
  unfold od_mem.
  destruct (od_get Nat.eqb step m) as [[lo hi]|] eqn:Hp; crunch.
  - destruct (flt (np_var (flatten t)) lo); crunch; [close_log|].
    destruct (fgt (np_var (flatten t)) hi); crunch; close_log.
  - destruct (flt (np_var (flatten t)) PInf); crunch; [close_log|].
    destruct (fgt (np_var (flatten t)) (Fin 0)); crunch; close_log.
Qed.

Local Transparent flt fgt.

Lemma warnings_of_app l1 l2 :
  warnings_of (l1 ++ l2) = warnings_of l1 ++ warnings_of l2.
Proof. apply filter_app. Qed.

Lemma for_each_log {T} (l : list string) (f : string -> M (Rule T) unit)
    (wl : string -> list log_record) :
  (forall x, logs_as (f x) (wl x)) ->
  logs_as (for_each l f) (flat_map wl l).
Proof.
  intros Hf. induction l as [|x l IH]; intro self; simpl.
  - exists self, []. rewrite app_nil_r. auto.
  - destruct (Hf x self) as (s1 & m1 & E1 & L1 & W1).
    unfold bind. rewrite E1.
    destruct (IH s1) as (s2 & m2 & E2 & L2 & W2).
    exists s2, (m1 ++ m2). rewrite E2, L2, L1, app_assoc, warnings_of_app.
    now rewrite W1, W2.
Qed.

Lemma when_log {T} (b : bool) (body : M (Rule T) unit) ws :
  logs_as body ws -> logs_as (when b body) (if b then ws else []).
Proof.
  intros H self. destruct b; cbn; [apply H|].
  exists self, []. rewrite app_nil_r. auto.
Qed.

Lemma flat_map_warnings (c : rule_class) bt step (p : string -> bool) l :
  flat_map (fun x => if p x then warning_for c bt step x else []) l
  = map (fun n => WARNING (CanNotFetch n))
        (filter (fun n => negb (reaches_assignment c bt step n))
                (filter p l)).
Proof.
  induction l as [|x l IH]; simpl; [reflexivity|].
  rewrite IH. unfold warning_for.
  destruct (p x); simpl; [|reflexivity].
  destruct (reaches_assignment c bt step x); reflexivity.
Qed.

Lemma loop_log {T} (c : rule_class) bt step (names : list string)
    (p : string -> bool) (body : string -> M (Rule T) unit) :
  (forall x, logs_as (body x) (warning_for c bt step x)) ->
  forall self, exists msgs,
    logger (fst ((for_each names (fun x => when (p x) (body x)) ;; ret false)%monad
                   self))
      = logger self ++ msgs
    /\ warnings_of msgs
       = map (fun n => WARNING (CanNotFetch n))
             (filter (fun n => negb (reaches_assignment c bt step n))
                     (filter p names)).
Proof.
  intros Hb self.
  destruct (@for_each_log T names (fun x => when (p x) (body x))
              (fun x => if p x then warning_for c bt step x else [])
              (fun x => when_log (p x) (Hb x)) self)
    as (s' & msgs & E & L & W).
  exists msgs. unfold bind. rewrite E. cbn. split; [exact L|].
  rewrite W. apply flat_map_warnings.
Qed.

(** X12.  For GradientsLayer, GradientsAcrossLayers, WeightRatio, Inputs and
    Outputs, [invoke_at_step] only appends to the log, and the warnings it
    appends are exactly one "Can not fetch tensor" per selected name for
    which it wrote nothing, in the order of the loop.  For GradientsLayer
    this includes the names whose tensor was fetched but has size zero. *)
Theorem X12_warnings_name_exactly_the_unwritten_tensors :
  forall (c : rule_class) bt step self,
    stores_cells c = false ->
    exists msgs,
      logger (fst (invoke_at_step c bt step self)) = logger self ++ msgs
      /\ warnings_of msgs
         = map (fun n => WARNING (CanNotFetch n))
               (filter (fun n => negb (reaches_assignment c bt step n))
                       (selected c bt)).
Proof.
  intros c bt step self Hc. destruct c; try discriminate Hc.
  - exact (@loop_log _ GradientsLayer bt step (tensor_names bt _)
             (not_excluded GradientsLayer) _
             (GradientsLayer_body_log bt step) self).
  - exact (@loop_log _ GradientsAcrossLayers bt step (tensor_names bt _)
             (not_excluded GradientsAcrossLayers) _
             (GradientsAcrossLayers_body_log bt step) self).
  - exact (@loop_log _ WeightRatio bt step (tensor_names bt _)
             (not_excluded WeightRatio) _
             (fun x => @raw_body_log WeightRatio
                         (fun n t => WeightsVariance n (np_var (flatten t)))
                         bt step x (fun _ => eq_refl))
             self).
  - exact (@loop_log _ Inputs bt step (tensor_names bt _)
             (not_excluded Inputs) _
             (fun x => @raw_body_log Inputs
                         (fun n t => InputsVariance n (np_var (flatten t)))
                         bt step x (fun _ => eq_refl))
             self).
  - exact (@loop_log _ Outputs bt step (tensor_names bt _)
             (not_excluded Outputs) _
             (fun x => @raw_body_log Outputs
                         (fun n t => InputsVariance n (np_var (flatten t)))
                         bt step x (fun _ => eq_refl))
             self).
Qed.

Lemma X12_witness :
  exists msgs,
    logger (fst (invoke_at_step GradientsLayer empty_gradient_trial 0
                   (init GradientsLayer)))
      = logger (init GradientsLayer) ++ msgs
    /\ warnings_of msgs = [WARNING (CanNotFetch "gradient/conv0_weight")].
Proof.
  apply (@X12_warnings_name_exactly_the_unwritten_tensors GradientsLayer
           empty_gradient_trial 0 (init GradientsLayer)).
  reflexivity.
Defined.

(** ** Which names a class skips *)

Lemma prefix_spec (sub s : string) :
  String.prefix sub s = true <-> exists post, s = (sub ++ post)%string.
Proof.
  revert s. induction sub as [|a sub IH]; intros [|b s]; simpl.
  - split; [|reflexivity]. intros _. now exists EmptyString.
  - split; [|reflexivity]. intros _. now exists (String b s).
  - split; [discriminate|]. intros [post H]. discriminate.
  - destruct (Ascii.ascii_dec a b) as [->|Hab].
    + rewrite IH. split; intros [post H]; exists post.
      * now rewrite H.
      * now injection H.
    + split; [discriminate|]. intros [post H]. injection H as -> _.
      contradiction.
Qed.

Lemma str_in_spec (sub s : string) :
  str_in sub s = true
  <-> exists pre post, s = (pre ++ sub ++ post)%string.
Proof.
  induction s as [|b s IH].
  - change (str_in sub EmptyString)
      with (if String.prefix sub EmptyString then true else false).
    destruct (String.prefix sub EmptyString) eqn:E.
    + split; [|reflexivity]. intros _.
      apply prefix_spec in E as [post E]. now exists EmptyString, post.
    + split; [discriminate|]. intros (pre & post & H).
      destruct pre; simpl in H; [|discriminate].
      assert (String.prefix sub EmptyString = true)
        by (apply prefix_spec; eauto).
      congruence.
  - change (str_in sub (String b s))
      with (if String.prefix sub (String b s) then true else str_in sub s).
    destruct (String.prefix sub (String b s)) eqn:E.
    + split; [|reflexivity]. intros _.
      apply prefix_spec in E as [post E]. now exists EmptyString, post.
    + rewrite IH. split.
      * intros (pre & post & ->). now exists (String b pre), post.
      * intros (pre & post & H). destruct pre as [|a pre]; simpl in H.
        -- assert (String.prefix sub (String b s) = true)
             by (apply prefix_spec; eauto).
           congruence.
        -- injection H as -> ->. eauto.
Qed.

(** A listed name is left out of the loop exactly when it contains the
    excluded substring. *)
Lemma unselected_iff_contains (c : rule_class) bt n :
  In n (tensor_names bt (regex_of c)) ->
  (~ In n (selected c bt)
   <-> exists sub pre post,
         excluded_of c = Some sub /\ n = (pre ++ sub ++ post)%string).
Proof.
  intros Hn. rewrite in_selected. unfold not_excluded. split.
  - intro H. destruct (excluded_of c) as [sub|]; [|tauto].
    destruct (str_in sub n) eqn:E; [|simpl in H; tauto].
    apply str_in_spec in E as (pre & post & E). eauto.
  - intros (sub & pre & post & Hsub & E) [_ H]. rewrite Hsub in H.
    assert (Hs : str_in sub n = true) by (apply str_in_spec; eauto).
    rewrite Hs in H. discriminate.
Qed.

(** ** The INFO records of the activation rules *)

Ltac close_info :=
  eexists; eexists; split; [reflexivity|]; cbn [logger];
  split; [rewrite <- ?app_assoc; try reflexivity;
          try (rewrite app_nil_r; reflexivity)
         | split; [simpl; intuition (try discriminate; try congruence)
                  | simpl; intuition (subst; auto)]].

Lemma close_info_nil {T} (s : Rule T) info b tname :
  b = false ->
  exists s' msgs,
    (s, Ok tt) = (s', Ok tt)
    /\ logger s' = logger s ++ msgs
    /\ (In info msgs <-> b = true)
    /\ (forall r, In r msgs -> r = info \/ r = WARNING (CanNotFetch tname)).
Proof.
  intros ->. exists s, []. rewrite app_nil_r.
  repeat split; simpl; try tauto; try discriminate.
Qed.

Lemma ActivationOutputs_body_info bt step tname :
  infos_as (try_except (ActivationOutputs.try_body bt step tname)
                       (logger_warning (CanNotFetch tname)))
           (nonpositive_info ActivationOutputs step tname)
           (has_nonpositive bt step tname) tname.
Proof.
  intros [m lg].
  unfold has_nonpositive, nonpositive_info, try_except,
    ActivationOutputs.try_body, fetch.
  destruct (tensor_value bt tname step) as [t|]; cbn; [|close_info].
  unfold od_mem.
  destruct (od_get String.eqb tname m) as [d|] eqn:Hd;
    [destruct (od_get Nat.eqb step d) as [[z|a]|] eqn:Hc|];
    destruct (Datatypes.length (np_where_le0 t)) eqn:Hneg; crunch;
    try destruct (broadcast_to _ _ _); crunch;
    first [ apply close_info_nil; reflexivity | close_info ].
Qed.

Lemma ActivationInputs_body_info bt step tname :
  infos_as (try_except (ActivationInputs.try_body bt step tname)
                       (logger_warning (CanNotFetch tname)))
           (nonpositive_info ActivationInputs step tname)
           (has_nonpositive bt step tname) tname.
Proof.
  intros [m lg].
  unfold has_nonpositive, nonpositive_info, try_except,
    ActivationInputs.try_body, fetch.
  destruct (tensor_value bt tname step) as [t|]; cbn; [|close_info].
  unfold od_mem.
  destruct (od_get String.eqb tname m) as [d|] eqn:Hd;
    [destruct (od_get Nat.eqb step d) as [[z|a]|] eqn:Hc|];
    destruct (Datatypes.length (np_where_le0 t)) eqn:Hneg; crunch;
    try destruct (broadcast_to _ _ _); crunch;
    first [ apply close_info_nil; reflexivity | close_info ].
Qed.

Lemma when_info {T} (p b : bool) (body : M (Rule T) unit) info tname :
  infos_as body info b tname -> infos_as (when p body) info (p && b) tname.
Proof.
  intros H self. destruct p; cbn; [apply H|].
  apply close_info_nil. reflexivity.
Qed.

Lemma for_each_info {T} (l : list string) (f : string -> M (Rule T) unit)
    (info : string -> log_record) (b : string -> bool) :
  (forall x y, info x <> WARNING (CanNotFetch y)) ->
  (forall x, infos_as (f x) (info x) (b x) x) ->
  forall self, exists s' msgs,
    for_each l f self = (s', Ok tt)
    /\ logger s' = logger self ++ msgs
    /\ (forall n, In (info n) msgs
                  <-> exists x, In x l /\ b x = true /\ info x = info n).
Proof.
  intros Hw Hf. induction l as [|x l IH]; intro self; simpl.
  - exists self, []. rewrite app_nil_r. repeat split; auto.
    + intros [].
    + intros (x & [] & _).
  - destruct (Hf x self) as (s1 & m1 & E1 & L1 & I1 & O1).
    unfold bind. rewrite E1.
    destruct (IH s1) as (s2 & m2 & E2 & L2 & I2).
    exists s2, (m1 ++ m2). rewrite E2, L2, L1, app_assoc.
    repeat split; auto.
    + intros Hin. apply in_app_or in Hin. destruct Hin as [Hin|Hin].
      * exists x. destruct (O1 _ Hin) as [E|E].
        -- rewrite E in Hin. apply I1 in Hin. auto.
        -- exfalso. exact (Hw _ _ E).
      * apply I2 in Hin. destruct Hin as (y & Hy & By & Ey).
        exists y. auto.
    + intros (y & [<-|Hy] & By & Ey); apply in_or_app.
      * left. rewrite <- Ey. apply I1. exact By.
      * right. apply I2. exists y. auto.
Qed.

Lemma has_nonpositive_spec bt step tname :
  has_nonpositive bt step tname = true
  <-> exists t, tensor_value bt tname step = Some t
                /\ exists x, In x (flatten t) /\ (x <= 0)%Q.
Proof.
  unfold has_nonpositive, np_where_le0.
  destruct (tensor_value bt tname step) as [t|].
  - split.
    + intros H. exists t. split; [reflexivity|].
      destruct (filter _ (flatten t)) as [|x r] eqn:E; [discriminate H|].
      assert (Hin : In x (filter (fun x => Qle_bool x 0) (flatten t)))
        by (rewrite E; left; reflexivity).
      apply filter_In in Hin. destruct Hin as [Hin Hle].
      exists x. split; [exact Hin|]. apply Qle_bool_iff. exact Hle.
    + intros (t' & Et & x & Hin & Hle). injection Et as <-.
      assert (Hf : In x (filter (fun x => Qle_bool x 0) (flatten t))).
      { apply filter_In. split; [exact Hin|]. apply Qle_bool_iff. exact Hle. }
      destruct (filter _ (flatten t)); [destruct Hf|reflexivity].
  - split; [discriminate|]. intros (t & Et & _). discriminate Et.
Qed.

Lemma loop_info {T} (c : rule_class) bt step (names : list string)
    (p : string -> bool) (body : string -> M (Rule T) unit) :
  (forall x y, nonpositive_info c step x <> WARNING (CanNotFetch y)) ->
  (forall x y, nonpositive_info c step x = nonpositive_info c step y -> x = y) ->
  (forall x, infos_as (body x) (nonpositive_info c step x)
                      (has_nonpositive bt step x) x) ->
  forall self, exists msgs,
    logger (fst ((for_each names (fun x => when (p x) (body x)) ;; ret false)%monad
                   self))
      = logger self ++ msgs
    /\ forall n,
         In (nonpositive_info c step n) msgs
         <-> In n (filter p names)
             /\ exists t, tensor_value bt n step = Some t
                          /\ exists x, In x (flatten t) /\ (x <= 0)%Q.
Proof.
  intros Hw Hinj Hb self.
  destruct (@for_each_info T names (fun x => when (p x) (body x))
              (nonpositive_info c step)
              (fun x => p x && has_nonpositive bt step x) Hw
              (fun x => when_info (p x) (Hb x)) self)
    as (s' & msgs & E & L & I).
  exists msgs. unfold bind. rewrite E. cbn. split; [exact L|].
  intro n. rewrite I, filter_In, <- has_nonpositive_spec. split.
  - intros (x & Hx & Bx & Ex). apply Hinj in Ex. subst x.
    apply andb_true_iff in Bx. tauto.
  - intros [[Hn Pn] Bn]. exists n. rewrite Pn, Bn. auto.
Qed.

(** X14.  For ActivationOutputs and ActivationInputs, [invoke_at_step] only
    appends to the log, and it logs the "smaller than 0" INFO record of a
    name exactly when the name is selected, its tensor can be fetched and
    some entry of the tensor is zero or negative: a tensor with an entry
    equal to zero and none below it is reported too. *)
Theorem X14_info_is_logged_iff_an_entry_is_not_positive :
  forall (c : rule_class) bt step self,
    stores_cells c = true ->
    exists msgs,
      logger (fst (invoke_at_step c bt step self)) = logger self ++ msgs
      /\ forall n,
           In (nonpositive_info c step n) msgs
           <-> In n (selected c bt)
               /\ exists t, tensor_value bt n step = Some t
                            /\ exists x, In x (flatten t) /\ (x <= 0)%Q.
Proof.
  intros c bt step self Hc. destruct c; try discriminate Hc.
  - refine (@loop_info _ ActivationOutputs bt step (tensor_names bt _)
              (not_excluded ActivationOutputs) _ _ _
              (ActivationOutputs_body_info bt step) self).
    + intros x y. discriminate.
    + intros x y H. injection H. auto.
  - refine (@loop_info _ ActivationInputs bt step (tensor_names bt _)
              (not_excluded ActivationInputs) _ _ _
              (ActivationInputs_body_info bt step) self).
    + intros x y. discriminate.
    + intros x y H. injection H. auto.
Qed.

Lemma X14_witness :
  exists msgs,
    logger (fst (invoke_at_step ActivationOutputs zero_output_trial 0
                   (init ActivationOutputs)))
      = logger (init ActivationOutputs) ++ msgs
    /\ forall n,
         In (INFO (OutputsSmallerThanZero 0 n)) msgs
         <-> In n ["conv0_relu_output_0"; "conv1_relu_output_0"]
             /\ exists t, tensor_value zero_output_trial n 0 = Some t
                          /\ exists x, In x (flatten t) /\ (x <= 0)%Q.
Proof.
  apply (@X14_info_is_logged_iff_an_entry_is_not_positive ActivationOutputs
           zero_output_trial 0 (init ActivationOutputs)).
  reflexivity.
Defined.

(** ** Names that are skipped leave no trace in the log *)

Lemma in_warnings_of r msgs :
  In r (warnings_of msgs) <-> In r msgs /\ is_warning r = true.
Proof. apply filter_In. Qed.

Lemma logs_as_own {T} (body : M (Rule T) unit) c bt step x :
  logs_as body (warning_for c bt step x) ->
  forall self, exists msgs,
    logger (fst (body self)) = logger self ++ msgs
    /\ forall n, In (WARNING (CanNotFetch n)) msgs -> n = x.
Proof.
  intros H self. destruct (H self) as (s' & msgs & E & L & W).
  exists msgs. rewrite E. split; [exact L|].
  intros n Hn.
  assert (Hw : In (WARNING (CanNotFetch n)) (warnings_of msgs))
    by (apply in_warnings_of; auto).
  rewrite W in Hw. unfold warning_for in Hw.
  destruct (reaches_assignment c bt step x); [destruct Hw|].
  destruct Hw as [[=]|[]]. congruence.
Qed.

Lemma infos_as_own {T} (body : M (Rule T) unit) m b x :
  infos_as body (INFO m) b x ->
  forall self, exists msgs,
    logger (fst (body self)) = logger self ++ msgs
    /\ forall n, In (WARNING (CanNotFetch n)) msgs -> n = x.
Proof.
  intros H self. destruct (H self) as (s' & msgs & E & L & _ & O).
  exists msgs. rewrite E. split; [exact L|].
  intros n Hn. destruct (O _ Hn) as [[=]|[=]]. congruence.
Qed.

(** The [try] statement of an iteration warns about its own tensor name
    only, and it does so when the fetch fails. *)
Lemma guarded_warns (c : rule_class) bt step x self :
  exists msgs,
    logger (fst (guarded c bt step x self)) = logger self ++ msgs
    /\ (forall n, In (WARNING (CanNotFetch n)) msgs -> n = x)
    /\ (tensor_value bt x step = None -> In (WARNING (CanNotFetch x)) msgs).
Proof.
  assert (Own : exists msgs,
             logger (fst (guarded c bt step x self)) = logger self ++ msgs
             /\ forall n, In (WARNING (CanNotFetch n)) msgs -> n = x).
  { destruct c.
    - exact (@infos_as_own _ _ _ _ _
               (ActivationOutputs_body_info bt step x) self).
    - exact (@infos_as_own _ _ _ _ _
               (ActivationInputs_body_info bt step x) self).
    - exact (@logs_as_own _ _ GradientsLayer bt step x
               (GradientsLayer_body_log bt step x) self).
    - exact (@logs_as_own _ _ GradientsAcrossLayers bt step x
               (GradientsAcrossLayers_body_log bt step x) self).
    - exact (@logs_as_own _ _ WeightRatio bt step x
               (@raw_body_log WeightRatio
                  (fun n t => WeightsVariance n (np_var (flatten t)))
                  bt step x (fun _ => eq_refl)) self).
    - exact (@logs_as_own _ _ Inputs bt step x
               (@raw_body_log Inputs
                  (fun n t => InputsVariance n (np_var (flatten t)))
                  bt step x (fun _ => eq_refl)) self).
    - exact (@logs_as_own _ _ Outputs bt step x
               (@raw_body_log Outputs
                  (fun n t => InputsVariance n (np_var (flatten t)))
                  bt step x (fun _ => eq_refl)) self). }
  destruct Own as (msgs & L & O). exists msgs. repeat split; auto.
  intro Hnone.
  destruct (guarded_runs c bt step x self) as (msgs' & E & W).
  rewrite E in L. cbn in L. apply app_inv_head in L. subst msgs'.
  rewrite (W Hnone). now left.
Qed.

Lemma run_warnings (c : rule_class) bt step l :
  forall self, exists msgs,
    logger (fst (for_each l (guarded c bt step) self)) = logger self ++ msgs
    /\ (forall n, In (WARNING (CanNotFetch n)) msgs -> In n l)
    /\ (forall n, In n l -> tensor_value bt n step = None ->
                  In (WARNING (CanNotFetch n)) msgs).
Proof.
  induction l as [|x l IH]; intro self; simpl.
  - exists []. rewrite app_nil_r. repeat split; auto; intros n [].
  - destruct (guarded_warns c bt step x self) as (m1 & L1 & O1 & W1).
    pose proof (guarded_completes c bt step x self) as Hok.
    unfold bind. destruct (guarded c bt step x self) as [s1 [[]|e]];
      [|discriminate Hok].
    cbn in L1. destruct (IH s1) as (m2 & L2 & O2 & W2).
    exists (m1 ++ m2). rewrite L2, L1, app_assoc. repeat split; auto.
    + intros n Hn. apply in_app_or in Hn as [Hn|Hn]; [left | right]; auto.
      symmetry. auto.
    + intros n [->|Hn] Hnone; apply in_or_app; [left | right]; auto.
Qed.

(** X13.  When the fetch of a tensor name listed by the trial fails at a
    step, [invoke_at_step] logs the "Can not fetch tensor" warning for that
    name, unless the name contains the excluded substring of the class
    somewhere inside it: "gradients" for the activation rules, "gradient"
    for WeightRatio, "relu" for Inputs and Outputs.  Exactly the names that
    contain it are skipped without a fetch and leave no warning;
    GradientsLayer and GradientsAcrossLayers skip nothing. *)
Theorem X13_a_name_is_skipped_iff_it_contains_the_excluded_substring :
  forall (c : rule_class) bt step self n,
    In n (tensor_names bt (regex_of c)) ->
    tensor_value bt n step = None ->
    exists msgs,
      logger (fst (invoke_at_step c bt step self)) = logger self ++ msgs
      /\ (~ In (WARNING (CanNotFetch n)) msgs
          <-> exists sub pre post,
                excluded_of c = Some sub
                /\ n = (pre ++ sub ++ post)%string).
Proof.
  intros c bt step self n Hn Hnone.
  rewrite invoke_at_step_iterations.
  destruct (run_warnings c bt step (selected c bt) self) as (msgs & L & O & W).
  exists msgs. split; [exact L|].
  rewrite <- (@unselected_iff_contains c bt n Hn). split.
  - intros H Hsel. apply H. now apply W.
  - intros H Hw. apply H. now apply O.
Qed.

Lemma X13_witness :
  exists msgs,
    logger (fst (invoke_at_step ActivationOutputs sample_trial 0
                   (init ActivationOutputs)))
      = logger (init ActivationOutputs) ++ msgs
    /\ (~ In (WARNING (CanNotFetch "conv1_relu_output_0")) msgs
        <-> exists sub pre post,
              excluded_of ActivationOutputs = Some sub
              /\ "conv1_relu_output_0" = (pre ++ sub ++ post)%string).
Proof.
  apply (@X13_a_name_is_skipped_iff_it_contains_the_excluded_substring
           ActivationOutputs sample_trial 0 (init ActivationOutputs)
           "conv1_relu_output_0").
  - simpl. auto.
  - reflexivity.
Defined.
